(** * Ridge regression (closed form), notebooks/ridge_regression.ipynb

    A shallow embedding of the [Ridge] class of the notebook and of the
    NumPy operations it calls.  Floating-point numbers are idealised as
    real numbers ([R]); arrays are row-major lists whose shapes are checked
    where NumPy checks them, and a failing check raises the exception NumPy
    raises.  The estimator object is an explicit state threaded through a
    small state-and-exception monad.

    One effect of rounding is kept: [np.linalg.inv] does not reliably detect
    a singular matrix.  Its LU factorisation raises only when it meets a
    pivot that is exactly zero; otherwise it returns an array of meaningless
    entries.  What it does on a matrix that is singular over the reals is a
    parameter, [lapack], of the development. *)

From Stdlib Require Import Reals List Arith Lia Lra Psatz Field.
From Stdlib Require Import Permutation Sorted.
Import ListNotations.
Open Scope R_scope.

(** ** Exceptions and outcomes *)

Inductive exn : Type :=
| ValueError       (* bad shapes, empty sequence of arrays *)
| LinAlgError      (* numpy.linalg.LinAlgError *)
| AttributeError   (* attribute read before it was ever assigned *)
| IndexError.

Inductive outcome (A : Type) : Type :=
| Return (a : A)
| Raise (e : exn).
Arguments Return {A} a.
Arguments Raise {A} e.

(** ** The NumPy operations used by the notebook *)

Module Np.

(** [ndarray] of one and of two dimensions. *)
Definition vector := list R.
Definition matrix := list (list R).

Definition nrows (M : matrix) : nat := length M.
Definition ncols (M : matrix) : nat :=
  match M with
  | [] => 0%nat
  | r :: _ => length r
  end.
Definition shape (M : matrix) : nat * nat := (nrows M, ncols M).

Fixpoint zip_with {A B C} (f : A -> B -> C) (l1 : list A) (l2 : list B)
  : list C :=
  match l1, l2 with
  | a :: l1', b :: l2' => f a b :: zip_with f l1' l2'
  | _, _ => []
  end.

(** [np.square] on a scalar. *)
Definition square (x : R) : R := x * x.

(** [np.atleast_1d] on a scalar; [np.atleast_2d] on a 1-d array. *)
Definition atleast_1d (x : R) : vector := [x].
Definition atleast_2d (v : vector) : matrix := [v].

(** [np.hstack] of 1-d arrays: concatenation along the only axis.  (It is
    always called on a three-element tuple here.) *)
Definition hstack (tup : list vector) : vector := concat tup.

(** [np.vstack] of 2-d arrays: concatenation along axis 0.  An empty
    sequence and disagreeing column counts raise [ValueError]. *)
Definition vstack (tup : list matrix) : outcome matrix :=
  match tup with
  | [] => Raise ValueError
  | a :: rest =>
      if forallb (fun b => ncols b =? ncols a)%nat rest
      then Return (concat tup)
      else Raise ValueError
  end.

(** [np.transpose] of a 2-d array. *)
Fixpoint transpose_to (k : nat) (M : matrix) : matrix :=
  match M with
  | [] => repeat [] k
  | r :: M' => zip_with cons r (transpose_to k M')
  end.
Definition transpose (M : matrix) : matrix := transpose_to (ncols M) M.

Fixpoint dot (u v : vector) : R :=
  match u, v with
  | a :: u', b :: v' => a * b + dot u' v'
  | _, _ => 0
  end.

(** [np.matmul] of two 2-d arrays; the inner dimensions must agree. *)
Definition matmul (A B : matrix) : outcome matrix :=
  if (ncols A =? nrows B)%nat
  then Return (map (fun r => map (dot r) (transpose B)) A)
  else Raise ValueError.

(** [np.identity n]. *)
Definition identity (n : nat) : matrix :=
  map (fun i => map (fun j => if (i =? j)%nat then 1 else 0) (seq 0 n))
      (seq 0 n).

(** scalar [*] array, and array [+] array for arrays of one shape (the
    only use in [fit]; broadcasting is not modelled). *)
Definition scalar_mul (c : R) (M : matrix) : matrix := map (map (Rmult c)) M.
Definition add (A B : matrix) : matrix := zip_with (zip_with Rplus) A B.

(** Determinant by expansion along the first row, and the adjugate. *)
Fixpoint remove_at {A} (j : nat) (l : list A) : list A :=
  match l, j with
  | [], _ => []
  | _ :: t, O => t
  | h :: t, S j' => h :: remove_at j' t
  end.

Definition minor (i j : nat) (M : matrix) : matrix :=
  map (remove_at j) (remove_at i M).

Definition sign (k : nat) : R := if Nat.even k then 1 else -1.

Fixpoint sum_list (l : list R) : R :=
  match l with
  | [] => 0
  | a :: l' => a + sum_list l'
  end.

Fixpoint det_n (n : nat) (M : matrix) : R :=
  match n with
  | O => 1
  | S n' =>
      sum_list
        (map (fun j => sign j * nth j (hd [] M) 0 * det_n n' (minor 0 j M))
             (seq 0 n))
  end.
Definition det (M : matrix) : R := det_n (nrows M) M.

Definition cofactor (i j : nat) (M : matrix) : R :=
  sign (i + j) * det_n (nrows M - 1) (minor i j M).

Definition adjugate (M : matrix) : matrix :=
  map (fun i => map (fun j => cofactor j i M) (seq 0 (nrows M)))
      (seq 0 (nrows M)).

Definition is_square (M : matrix) : bool :=
  forallb (fun r => (length r =? nrows M)%nat) M.

(** The [n] x [n] array with entries [r i j]. *)
Definition tabulate (n : nat) (r : nat -> nat -> R) : matrix :=
  map (fun i => map (fun j => r i j) (seq 0 n)) (seq 0 n).

(** [np.linalg.inv]: the inverse of a square matrix; a matrix that is not
    square raises [LinAlgError].  On an invertible matrix the result is the
    inverse, unique over exact arithmetic and so given by the adjugate
    formula.  On a matrix that is singular over the reals the call raises
    [LinAlgError] when the factorisation meets an exactly zero pivot
    ([lapack A = None]) and otherwise returns an array of the same shape
    whose entries [r] carry no meaning ([lapack A = Some r]). *)
Definition linalg_inv (lapack : matrix -> option (nat -> nat -> R))
           (A : matrix) : outcome matrix :=
  if negb (is_square A) then Raise LinAlgError
  else if Req_dec_T (det A) 0 then
    match lapack A with
    | None => Raise LinAlgError
    | Some r => Return (tabulate (nrows A) r)
    end
  else Return (scalar_mul (/ det A) (adjugate A)).

(** [a[i]] on a 2-d array: row [i] as a 1-d array. *)
Definition getitem (M : matrix) (i : nat) : outcome vector :=
  match nth_error M i with
  | Some r => Return r
  | None => Raise IndexError
  end.

(** 1-d array [+] 1-d array of one length, 1-d array [*] scalar. *)
Definition vadd (u v : vector) : vector := zip_with Rplus u v.
Definition vscale (u : vector) (c : R) : vector := map (fun a => a * c) u.

(** [np.linalg.norm] of a 2-d array: the Frobenius norm. *)
Definition linalg_norm (M : matrix) : R :=
  sqrt (sum_list (map (fun a => a * a) (concat M))).

(** [np.linspace start stop num] (endpoint included): [num] evenly spaced
    samples, the last one set to [stop]. *)
Definition linspace (start stop : R) (num : nat) : vector :=
  match num with
  | O => []
  | S O => [0 * (stop - start) + start]
  | S (S _) =>
      let step := (stop - start) / INR (num - 1) in
      map (fun k => INR k * step + start) (seq 0 (num - 1)) ++ [stop]
  end.

End Np.

(** ** The estimator object and its methods *)

(** The attributes an instance can carry: [_lambda] from the constructor on,
    [_coeff_hat] only once [fit] has assigned it. *)
Record Ridge : Type := {
  _lambda : R;
  _coeff_hat : option Np.matrix
}.

(** What a method call hands back to its caller. *)
Inductive pyvalue : Type :=
| PyNone
| PyArray (a : Np.matrix).

(** A method body: it reads and writes the instance and either returns or
    raises. *)
Definition method (A : Type) : Type := Ridge -> Ridge * outcome A.

Definition ret {A} (a : A) : method A := fun self => (self, Return a).
Definition bind {A B} (m : method A) (f : A -> method B) : method B :=
  fun self =>
    match m self with
    | (self', Return a) => f a self'
    | (self', Raise e) => (self', Raise e)
    end.
Definition lift {A} (o : outcome A) : method A := fun self => (self, o).

Notation "x <- m ;; k" := (bind m (fun x => k))
  (at level 61, m at next level, right associativity).

Definition get_lambda : method R := fun self => (self, Return (_lambda self)).
Definition get_coeff_hat : method Np.matrix :=
  fun self =>
    match _coeff_hat self with
    | Some c => (self, Return c)
    | None => (self, Raise AttributeError)
    end.
Definition set_coeff_hat (c : Np.matrix) : method unit :=
  fun self =>
    ({| _lambda := _lambda self; _coeff_hat := Some c |}, Return tt).

(** [Ridge.__init__]. *)
Definition __init__ (lam : R) : Ridge :=
  {| _lambda := lam; _coeff_hat := None |}.

(** [Ridge._x_bar]. *)
Definition _x_bar (x : R) : Np.vector :=
  Np.hstack [[1]; Np.atleast_1d x; Np.atleast_1d (Np.square x)].

(** The class has no prediction method; the notebook evaluates the fitted
    polynomial in place,
    [ridge._coeff_hat[0] + ridge._coeff_hat[1]*x + ridge._coeff_hat[2]*x**2],
    which is the operation called [predict] here. *)
Definition predict (x : R) : method Np.vector :=
  c0 <- (c <- get_coeff_hat ;; lift (Np.getitem c 0)) ;;
  c1 <- (c <- get_coeff_hat ;; lift (Np.getitem c 1)) ;;
  c2 <- (c <- get_coeff_hat ;; lift (Np.getitem c 2)) ;;
  ret (Np.vadd (Np.vadd c0 (Np.vscale c1 x)) (Np.vscale c2 (x ^ 2))).

(** ** The estimator as the specification words it

    Matrices are functions of their indices, sums run over the rows in input
    order.  Nothing here is taken from the code above. *)

Module Spec.

Fixpoint big_sum (n : nat) (f : nat -> R) : R :=
  match n with
  | O => 0
  | S n' => f O + big_sum n' (fun k => f (S k))
  end.

Definition sum3 (f : nat -> R) : R := f 0%nat + f 1%nat + f 2%nat.

Definition delta (i j : nat) : R := if (i =? j)%nat then 1 else 0.

(** The feature vector [1, x, x^2]. *)
Definition expand (x : R) : list R := [1; x; x ^ 2].

(** Design matrix (row [k] is the expansion of the [k]-th input) and
    target column. *)
Definition X (xs : list R) (k i : nat) : R := nth i (expand (nth k xs 0)) 0.
Definition Y (ys : list R) (k : nat) : R := nth k ys 0.

Definition XtX (xs : list R) (i j : nat) : R :=
  big_sum (length xs) (fun k => X xs k i * X xs k j).
Definition XtY (xs ys : list R) (i : nat) : R :=
  big_sum (length xs) (fun k => X xs k i * Y ys k).

(** The regularized Gram matrix [X^T X + lam I], [I] the 3 x 3 identity. *)
Definition A (lam : R) (xs : list R) (i j : nat) : R :=
  XtX xs i j + lam * delta i j.

Definition is_inverse (M N : nat -> nat -> R) : Prop :=
  forall i j, (i < 3)%nat -> (j < 3)%nat ->
    sum3 (fun k => M i k * N k j) = delta i j /\
    sum3 (fun k => N i k * M k j) = delta i j.

Definition invertible (M : nat -> nat -> R) : Prop :=
  exists N, is_inverse M N.

(** [theta_hat = Ainv (X^T Y)] for an inverse [Ainv] of [X^T X + lam I]. *)
Definition theta_hat (Ainv : nat -> nat -> R) (xs ys : list R) (i : nat)
  : R :=
  sum3 (fun j => Ainv i j * XtY xs ys j).

(** The penalized objective
    [J(theta) = sum_i (theta^T xbar_i - y_i)^2 + lam |theta|^2]. *)
Definition J (lam : R) (xs ys : list R) (theta : nat -> R) : R :=
  big_sum (length xs)
          (fun k => (sum3 (fun i => theta i * X xs k i) - Y ys k) ^ 2)
  + lam * sum3 (fun i => theta i ^ 2).

(** The vector of R^3 with the given coordinates. *)
Definition vec (t0 t1 t2 : R) (i : nat) : R := nth i [t0; t1; t2] 0.

(** A vector of R^3 as a 3 x 1 column array. *)
Definition column (theta : nat -> R) : list (list R) :=
  [[theta 0%nat]; [theta 1%nat]; [theta 2%nat]].

End Spec.

(** ** Behaviours of the inversion on singular matrices *)

(** The factorisation meets a zero pivot on every singular matrix. *)
Definition lu_breaks_down : Np.matrix -> option (nat -> nat -> R) :=
  fun _ => None.

(** Rounding hides every singularity and the entries [r] come back. *)
Definition lu_rounds_through (r : nat -> nat -> R)
  : Np.matrix -> option (nat -> nat -> R) :=
  fun _ => Some r.

Section Estimator.

(** What [np.linalg.inv] does on a matrix that is singular over the reals. *)
Variable lapack : Np.matrix -> option (nat -> nat -> R).

(** [Ridge.fit].  The body has no [return] statement, so a call that does
    not raise evaluates to [None]. *)
Definition fit (x_train y_train : list R) : method pyvalue :=
  X <- lift (Np.vstack (map (fun x => Np.atleast_2d (_x_bar x)) x_train)) ;;
  Y <- lift (Np.vstack
               (map (fun y => Np.atleast_2d (Np.atleast_1d y)) y_train)) ;;
  let XT := Np.transpose X in
  G <- lift (Np.matmul XT X) ;;
  lam <- get_lambda ;;
  let XTX := Np.add G (Np.scalar_mul lam (Np.identity (snd (Np.shape X)))) in
  Ainv <- lift (Np.linalg_inv lapack XTX) ;;
  P <- lift (Np.matmul Ainv XT) ;;
  theta <- lift (Np.matmul P Y) ;;
  _ <- set_coeff_hat theta ;;
  ret PyNone.


(** ** Power sums of the training data

    The entries of [X^T X] and [X^T Y] for the quadratic design matrix are
    power sums of the inputs and mixed sums with the targets. *)

Definition mom (k : nat) (xs : list R) : R :=
  Np.sum_list (map (fun x => x ^ k) xs).

Definition cross (k : nat) (xs ys : list R) : R :=
  Np.sum_list (Np.zip_with (fun x y => x ^ k * y) xs ys).

Definition ones (xs : list R) : Np.vector := map (fun _ => 1) xs.
Definition squares (xs : list R) : Np.vector := map Np.square xs.

(** The determinant of a 3 x 3 matrix given by its entries. *)
Definition det3 (a b c d e f g h i : R) : R :=
  a * (e * i - f * h) - b * (d * i - f * g) + c * (d * h - e * g).

(** The determinant of [X^T X + lam I] in terms of the power sums. *)
Definition gram_det (lam : R) (xs : list R) : R :=
  det3 (mom 0 xs + lam) (mom 1 xs) (mom 2 xs)
       (mom 1 xs) (mom 2 xs + lam) (mom 3 xs)
       (mom 2 xs) (mom 3 xs) (mom 4 xs + lam).

(** The normal equations [(X^T X + lam I) theta = X^T Y]. *)
Definition normal_eqs (lam : R) (xs ys : list R) (t0 t1 t2 : R) : Prop :=
  (mom 0 xs + lam) * t0 + mom 1 xs * t1 + mom 2 xs * t2 = cross 0 xs ys /\
  mom 1 xs * t0 + (mom 2 xs + lam) * t1 + mom 3 xs * t2 = cross 1 xs ys /\
  mom 2 xs * t0 + mom 3 xs * t1 + (mom 4 xs + lam) * t2 = cross 2 xs ys.

(** The state [fit] leaves behind when it stores [c]. *)
Definition fitted (self : Ridge) (c : Np.matrix) : Ridge :=
  {| _lambda := _lambda self; _coeff_hat := Some c |}.

(** The inverse of a 3 x 3 matrix given by its entries. *)
Definition inv3 (a b c d e f g h i : R) : Np.matrix :=
  let D := det3 a b c d e f g h i in
  [[(e * i - f * h) / D; (c * h - b * i) / D; (b * f - c * e) / D];
   [(f * g - d * i) / D; (a * i - c * g) / D; (c * d - a * f) / D];
   [(d * h - e * g) / D; (b * g - a * h) / D; (a * e - b * d) / D]].

(** [XTX] as [fit] computes it. *)
Definition gram (lam : R) (xs : list R) : Np.matrix :=
  [[mom 0 xs + lam * 1; mom 1 xs + lam * 0; mom 2 xs + lam * 0];
   [mom 1 xs + lam * 0; mom 2 xs + lam * 1; mom 3 xs + lam * 0];
   [mom 2 xs + lam * 0; mom 3 xs + lam * 0; mom 4 xs + lam * 1]].

(** The coefficients [fit] stores: [inv(XTX)] applied to [X^T Y]. *)
Definition solution (lam : R) (xs ys : list R) : Np.matrix :=
  map (fun r => [Np.dot r [cross 0 xs ys; cross 1 xs ys; cross 2 xs ys]])
      (inv3 (mom 0 xs + lam * 1) (mom 1 xs + lam * 0) (mom 2 xs + lam * 0)
            (mom 1 xs + lam * 0) (mom 2 xs + lam * 1) (mom 3 xs + lam * 0)
            (mom 2 xs + lam * 0) (mom 3 xs + lam * 0) (mom 4 xs + lam * 1)).

(** The rows of [B] applied to [X^T Y]: what [fit] stores when the
    inversion returned [B]. *)
Definition apply_rows (B : Np.matrix) (xs ys : list R) : Np.matrix :=
  map (fun r => [Np.dot r [cross 0 xs ys; cross 1 xs ys; cross 2 xs ys]]) B.

(** ** Lifecycle *)

(** Instances on which no call of [fit] has succeeded: freshly constructed
    ones, and those reached from them by calls of [fit] that raised and by
    evaluations of [predict]. *)
Inductive unfitted : Ridge -> Prop :=
| unfitted_init lam : unfitted (__init__ lam)
| unfitted_fit self xs ys e :
    unfitted self ->
    snd (fit xs ys self) = Raise e ->
    unfitted (fst (fit xs ys self))
| unfitted_predict self x :
    unfitted self ->
    unfitted (fst (predict x self)).

(** ** Sums of squares over the training data *)

Definition sq_sum (d0 d1 d2 : R) (xs : list R) : R :=
  Np.sum_list (map (fun x => (d0 + d1 * x + d2 * x ^ 2) ^ 2) xs).

Definition residual_sum (t0 t1 t2 : R) (xs ys : list R) : R :=
  Np.sum_list
    (Np.zip_with (fun x y => (t0 + t1 * x + t2 * x ^ 2 - y) ^ 2) xs ys).

Definition target_sq (ys : list R) : R :=
  Np.sum_list (map (fun y => y ^ 2) ys).

(** The inverse [fit] computes, read as a matrix of the specification. *)
Definition gram_inverse (lam : R) (xs : list R) (i j : nat) : R :=
  nth j (nth i (inv3 (mom 0 xs + lam * 1) (mom 1 xs + lam * 0)
                     (mom 2 xs + lam * 0) (mom 1 xs + lam * 0)
                     (mom 2 xs + lam * 1) (mom 3 xs + lam * 0)
                     (mom 2 xs + lam * 0) (mom 3 xs + lam * 0)
                     (mom 4 xs + lam * 1)) []) 0.

(** ** Noise-free data and residuals *)

(** A quadratic trend, the shape of the data the notebook generates. *)
Definition quadratic (c0 c1 c2 x : R) : R := c0 + c1 * x + c2 * x ^ 2.

(** [sum_k x_k^i (t0 + t1 x_k + t2 x_k^2 - y_k)]: row [i] of
    [X^T (X theta - Y)]. *)
Definition residual_moment (i : nat) (t0 t1 t2 : R) (xs ys : list R) : R :=
  Np.sum_list
    (Np.zip_with (fun x y => x ^ i * (t0 + t1 * x + t2 * x ^ 2 - y)) xs ys).

(** ** The cells "Effect of regularization factor" *)

(** The notebook variables the cells read and write. *)
Record globals : Type := {
  ridge : Ridge;
  coeff_store : list Np.matrix;
  norm_store : list R
}.

(** A statement of a cell: it updates the variables and either completes or
    raises. *)
Definition cell (A : Type) : Type := globals -> globals * outcome A.

Definition cbind {A B} (m : cell A) (f : A -> cell B) : cell B :=
  fun g =>
    match m g with
    | (g', Return a) => f a g'
    | (g', Raise e) => (g', Raise e)
    end.

Notation "x <~ m ;; k" := (cbind m (fun x => k))
  (at level 61, m at next level, right associativity).

(** [ridge = r]. *)
Definition assign_ridge (r : Ridge) : cell unit :=
  fun g =>
    ({| ridge := r; coeff_store := coeff_store g;
        norm_store := norm_store g |}, Return tt).

(** A method call or attribute read on the object bound to [ridge]. *)
Definition on_ridge {A} (m : method A) : cell A :=
  fun g =>
    match m (ridge g) with
    | (r', o) =>
        ({| ridge := r'; coeff_store := coeff_store g;
            norm_store := norm_store g |}, o)
    end.

(** [coeff_store.append(c)] and [norm_store.append(n)]. *)
Definition append_coeff (c : Np.matrix) : cell unit :=
  fun g =>
    ({| ridge := ridge g; coeff_store := coeff_store g ++ [c];
        norm_store := norm_store g |}, Return tt).
Definition append_norm (n : R) : cell unit :=
  fun g =>
    ({| ridge := ridge g; coeff_store := coeff_store g;
        norm_store := norm_store g ++ [n] |}, Return tt).

(** The body of the loop [for l in factors]. *)
Definition sweep_body (x_train y_train : list R) (l : R) : cell unit :=
  _ <~ assign_ridge (__init__ l) ;;
  _ <~ on_ridge (fit x_train y_train) ;;
  c <~ on_ridge get_coeff_hat ;;
  _ <~ append_coeff c ;;
  c' <~ on_ridge get_coeff_hat ;;
  append_norm (Np.linalg_norm c').

(** A [for] loop: an exception leaves the loop at once. *)
Fixpoint for_each {A} (l : list A) (body : A -> cell unit) : cell unit :=
  match l with
  | [] => fun g => (g, Return tt)
  | a :: rest => _ <~ body a ;; for_each rest body
  end.

(** The whole cell: both stores start empty, the factors are
    [np.linspace(0.0, 1.0, 10)]. *)
Definition sweep_cell (x_train y_train : list R) : cell unit :=
  fun g =>
    for_each (Np.linspace 0 1 10) (sweep_body x_train y_train)
             {| ridge := ridge g; coeff_store := []; norm_store := [] |}.

(** [[c[i] for c in coeff_store]] of the plotting cell. *)
Fixpoint components (i : nat) (store : list Np.matrix)
  : outcome (list Np.vector) :=
  match store with
  | [] => Return []
  | c :: rest =>
      match Np.getitem c i with
      | Raise e => Raise e
      | Return v =>
          match components i rest with
          | Raise e => Raise e
          | Return vs => Return (v :: vs)
          end
      end
  end.

(** * Proofs *)

(** Equality of arrays, entry by entry. *)
Ltac entrywise :=
  repeat match goal with
         | |- @cons _ _ _ = @cons _ _ _ => apply (f_equal2 (@cons _))
         | |- @nil _ = @nil _ => reflexivity
         end.

(** ** Evaluating the NumPy calls of [fit] *)

Lemma x_bar_eq x : _x_bar x = [1; x; Np.square x].
Proof. reflexivity. Qed.

Lemma concat_singletons {A B} (f : A -> B) l :
  concat (map (fun a => [f a]) l) = map f l.
Proof. induction l as [|a l IH]; simpl; [reflexivity | now rewrite IH]. Qed.

Lemma vstack_rows (f : R -> Np.vector) (k : nat) xs :
  (forall x, length (f x) = k) -> xs <> [] ->
  Np.vstack (map (fun x => Np.atleast_2d (f x)) xs) = Return (map f xs).
Proof.
  intros Hk Hne. destruct xs as [|x xs]; [congruence|].
  unfold Np.vstack. cbn [map].
  replace (forallb _ _) with true.
  - f_equal. apply (concat_singletons f (x :: xs)).
  - symmetry. apply forallb_forall. intros b Hb.
    apply in_map_iff in Hb. destruct Hb as [x' [<- _]].
    cbn. rewrite !Hk. apply Nat.eqb_refl.
Qed.

Lemma transpose_to_X xs :
  Np.transpose_to 3 (map _x_bar xs) = [ones xs; xs; squares xs].
Proof.
  induction xs as [|x xs IH]; [reflexivity|].
  cbn [map Np.transpose_to]. rewrite IH. reflexivity.
Qed.

Lemma transpose_X xs :
  xs <> [] -> Np.transpose (map _x_bar xs) = [ones xs; xs; squares xs].
Proof.
  intros Hne. destruct xs as [|x xs]; [congruence|].
  unfold Np.transpose. cbn [map Np.ncols _x_bar].
  change (length _) with 3%nat. apply (transpose_to_X (x :: xs)).
Qed.

Lemma transpose_XT xs :
  Np.transpose [ones xs; xs; squares xs] = map _x_bar xs.
Proof.
  unfold Np.transpose. cbn [Np.ncols]. unfold ones at 1. rewrite length_map.
  cbn [Np.transpose_to].
  induction xs as [|x xs IH]; [reflexivity|].
  cbn [length repeat ones squares map Np.zip_with].
  unfold ones, squares in IH. rewrite IH. reflexivity.
Qed.

Lemma transpose_to_Y ys :
  Np.transpose_to 1 (map (fun y => Np.atleast_1d y) ys) = [ys].
Proof.
  induction ys as [|y ys IH]; [reflexivity|].
  cbn [map Np.transpose_to]. rewrite IH. reflexivity.
Qed.

Lemma transpose_Y ys :
  ys <> [] -> Np.transpose (map (fun y => Np.atleast_1d y) ys) = [ys].
Proof.
  intros Hne. destruct ys as [|y ys]; [congruence|].
  apply (transpose_to_Y (y :: ys)).
Qed.

Lemma length_ones xs : length (ones xs) = length xs.
Proof. apply length_map. Qed.

(** The entries of [X^T X] are power sums. *)
Lemma dot_moments xs :
  Np.dot (ones xs) (ones xs) = mom 0 xs /\
  Np.dot (ones xs) xs = mom 1 xs /\
  Np.dot (ones xs) (squares xs) = mom 2 xs /\
  Np.dot xs (ones xs) = mom 1 xs /\
  Np.dot xs xs = mom 2 xs /\
  Np.dot xs (squares xs) = mom 3 xs /\
  Np.dot (squares xs) (ones xs) = mom 2 xs /\
  Np.dot (squares xs) xs = mom 3 xs /\
  Np.dot (squares xs) (squares xs) = mom 4 xs.
Proof.
  unfold mom, ones, squares, Np.square.
  induction xs as [|x xs IH]; cbn [map Np.dot Np.sum_list].
  - repeat split; reflexivity.
  - destruct IH as (H1 & H2 & H3 & H4 & H5 & H6 & H7 & H8 & H9).
    rewrite H1, H2, H3, H4, H5, H6, H7, H8, H9.
    repeat split; ring.
Qed.

(** A row of [inv(XTX) XT] against the targets. *)
Lemma dot_row_targets p q r xs ys :
  Np.dot (map (Np.dot [p; q; r]) (map _x_bar xs)) ys =
  p * cross 0 xs ys + q * cross 1 xs ys + r * cross 2 xs ys.
Proof.
  unfold cross. revert ys.
  induction xs as [|x xs IH]; intros ys.
  - cbn. ring.
  - destruct ys as [|y ys].
    + cbn. ring.
    + cbn [map Np.dot Np.zip_with Np.sum_list]. rewrite IH.
      rewrite x_bar_eq. cbn [Np.dot]. unfold Np.square. ring.
Qed.

Lemma det_3 a b c d e f g h i :
  Np.det [[a; b; c]; [d; e; f]; [g; h; i]] = det3 a b c d e f g h i.
Proof. unfold det3. cbn. ring. Qed.



Lemma fit_prefix xs ys self :
  xs <> [] -> ys <> [] ->
  fit xs ys self =
  (Ainv <- lift (Np.linalg_inv lapack (gram (_lambda self) xs)) ;;
   P <- lift (Np.matmul Ainv [ones xs; xs; squares xs]) ;;
   theta <- lift (Np.matmul P (map (fun y => Np.atleast_1d y) ys)) ;;
   _ <- set_coeff_hat theta ;;
   ret PyNone) self.
Proof.
  intros Hx Hy. unfold fit.
  unfold bind at 1. unfold lift at 1.
  rewrite (vstack_rows _x_bar 3 xs (fun _ => eq_refl) Hx).
  unfold bind at 1. unfold lift at 1.
  rewrite (vstack_rows (fun y => Np.atleast_1d y) 1 ys (fun _ => eq_refl) Hy).
  cbv zeta. rewrite (transpose_X xs Hx).
  unfold bind at 1. unfold lift at 1.
  unfold Np.matmul at 1.
  cbn [Np.ncols]. unfold Np.nrows.
  rewrite length_ones, length_map, Nat.eqb_refl, (transpose_X xs Hx).
  cbn [map].
  destruct (dot_moments xs) as (H1 & H2 & H3 & H4 & H5 & H6 & H7 & H8 & H9).
  rewrite H1, H2, H3, H4, H5, H6, H7, H8, H9.
  unfold bind at 1. unfold get_lambda at 1.
  replace (snd (Np.shape (map _x_bar xs))) with 3%nat
    by (destruct xs; [congruence | reflexivity]).
  reflexivity.
Qed.

Lemma linalg_inv_singular a b c d e f g h i :
  det3 a b c d e f g h i = 0 ->
  Np.linalg_inv lapack [[a; b; c]; [d; e; f]; [g; h; i]] =
  match lapack [[a; b; c]; [d; e; f]; [g; h; i]] with
  | None => Raise LinAlgError
  | Some r => Return (Np.tabulate 3 r)
  end.
Proof.
  intros HD. unfold Np.linalg_inv. cbn [Np.is_square forallb length Np.nrows
    Nat.eqb andb negb].
  destruct (Req_dec_T _ 0) as [_|Hn]; [reflexivity|].
  exfalso. apply Hn. rewrite det_3. exact HD.
Qed.

Lemma linalg_inv_regular a b c d e f g h i :
  det3 a b c d e f g h i <> 0 ->
  Np.linalg_inv lapack [[a; b; c]; [d; e; f]; [g; h; i]] =
  Return (inv3 a b c d e f g h i).
Proof.
  intros HD. unfold Np.linalg_inv. cbn [Np.is_square forallb length Np.nrows
    Nat.eqb andb negb].
  destruct (Req_dec_T _ 0) as [Hz|_].
  - exfalso. apply HD. rewrite <- det_3. exact Hz.
  - rewrite det_3. unfold inv3. cbn.
    set (D := det3 a b c d e f g h i) in *.
    f_equal. entrywise; unfold Np.cofactor; cbn; field; exact HD.
Qed.

Lemma gram_det_eq lam xs :
  det3 (mom 0 xs + lam * 1) (mom 1 xs + lam * 0) (mom 2 xs + lam * 0)
       (mom 1 xs + lam * 0) (mom 2 xs + lam * 1) (mom 3 xs + lam * 0)
       (mom 2 xs + lam * 0) (mom 3 xs + lam * 0) (mom 4 xs + lam * 1)
  = gram_det lam xs.
Proof. unfold gram_det, det3. ring. Qed.

Lemma fit_empty_x ys self : fit [] ys self = (self, Raise ValueError).
Proof. reflexivity. Qed.

Lemma fit_empty_y xs self :
  xs <> [] -> fit xs [] self = (self, Raise ValueError).
Proof.
  intros Hx. unfold fit.
  unfold bind at 1. unfold lift at 1.
  rewrite (vstack_rows _x_bar 3 xs (fun _ => eq_refl) Hx).
  reflexivity.
Qed.

(** A singular Gram matrix on which the inversion raises. *)
Lemma fit_singular xs ys self :
  xs <> [] -> ys <> [] -> gram_det (_lambda self) xs = 0 ->
  lapack (gram (_lambda self) xs) = None ->
  fit xs ys self = (self, Raise LinAlgError).
Proof.
  intros Hx Hy HD HL. rewrite (fit_prefix xs ys self Hx Hy).
  unfold bind at 1. unfold lift at 1. unfold gram in *.
  rewrite linalg_inv_singular by (rewrite gram_det_eq; exact HD).
  rewrite HL. reflexivity.
Qed.

(** A singular Gram matrix on which the inversion returns. *)
Lemma fit_rounded xs ys self r :
  xs <> [] -> ys <> [] -> gram_det (_lambda self) xs = 0 ->
  lapack (gram (_lambda self) xs) = Some r ->
  fit xs ys self =
  if (length xs =? length ys)%nat
  then (fitted self (apply_rows (Np.tabulate 3 r) xs ys), Return PyNone)
  else (self, Raise ValueError).
Proof.
  intros Hx Hy HD HL. rewrite (fit_prefix xs ys self Hx Hy).
  unfold bind at 1. unfold lift at 1. unfold gram in *.
  rewrite linalg_inv_singular by (rewrite gram_det_eq; exact HD).
  rewrite HL.
  unfold bind at 1. unfold lift at 1.
  unfold Np.matmul at 1. unfold apply_rows, Np.tabulate.
  cbn [seq map Np.ncols Np.nrows length Nat.eqb].
  rewrite transpose_XT.
  unfold bind at 1. unfold lift at 1.
  unfold Np.matmul at 1.
  cbn [Np.ncols map]. unfold Np.nrows. rewrite !length_map.
  destruct (length xs =? length ys)%nat; [|reflexivity].
  rewrite (transpose_Y ys Hy). cbn [map].
  rewrite !dot_row_targets.
  cbn [Np.dot].
  unfold bind, set_coeff_hat, ret, fitted.
  do 3 f_equal. entrywise; ring.
Qed.

Lemma apply_rows_shape r xs ys :
  exists t0 t1 t2, apply_rows (Np.tabulate 3 r) xs ys = [[t0]; [t1]; [t2]].
Proof. unfold apply_rows, Np.tabulate. cbn [seq map]. eauto. Qed.


Lemma fit_regular xs ys self :
  xs <> [] -> ys <> [] -> gram_det (_lambda self) xs <> 0 ->
  fit xs ys self =
  if (length xs =? length ys)%nat
  then (fitted self (solution (_lambda self) xs ys), Return PyNone)
  else (self, Raise ValueError).
Proof.
  intros Hx Hy HD. rewrite (fit_prefix xs ys self Hx Hy).
  unfold bind at 1. unfold lift at 1. unfold gram.
  rewrite linalg_inv_regular by (rewrite gram_det_eq; exact HD).
  unfold bind at 1. unfold lift at 1.
  unfold Np.matmul at 1. unfold solution, inv3.
  cbn [Np.ncols Np.nrows length Nat.eqb].
  rewrite transpose_XT.
  unfold bind at 1. unfold lift at 1.
  unfold Np.matmul at 1.
  cbn [Np.ncols map]. unfold Np.nrows. rewrite !length_map.
  destruct (length xs =? length ys)%nat; [|reflexivity].
  rewrite (transpose_Y ys Hy). cbn [map].
  rewrite !dot_row_targets.
  cbn [Np.dot].
  unfold bind, set_coeff_hat, ret, fitted.
  do 3 f_equal. entrywise; ring.
Qed.

(** ** Linear algebra in dimension three *)

(** A homogeneous system with non-zero determinant has only the zero
    solution (Cramer's rule). *)
Lemma cramer3 a b c d e f g h i x y z :
  det3 a b c d e f g h i <> 0 ->
  a * x + b * y + c * z = 0 ->
  d * x + e * y + f * z = 0 ->
  g * x + h * y + i * z = 0 ->
  x = 0 /\ y = 0 /\ z = 0.
Proof.
  intros HD H1 H2 H3.
  assert (Hx : det3 a b c d e f g h i * x = 0).
  { transitivity ((e * i - f * h) * (a * x + b * y + c * z)
                  + (c * h - b * i) * (d * x + e * y + f * z)
                  + (b * f - c * e) * (g * x + h * y + i * z)).
    - unfold det3. ring.
    - rewrite H1, H2, H3. ring. }
  assert (Hy : det3 a b c d e f g h i * y = 0).
  { transitivity ((f * g - d * i) * (a * x + b * y + c * z)
                  + (a * i - c * g) * (d * x + e * y + f * z)
                  + (c * d - a * f) * (g * x + h * y + i * z)).
    - unfold det3. ring.
    - rewrite H1, H2, H3. ring. }
  assert (Hz : det3 a b c d e f g h i * z = 0).
  { transitivity ((d * h - e * g) * (a * x + b * y + c * z)
                  + (b * g - a * h) * (d * x + e * y + f * z)
                  + (a * e - b * d) * (g * x + h * y + i * z)).
    - unfold det3. ring.
    - rewrite H1, H2, H3. ring. }
  repeat split.
  - destruct (Rmult_integral _ _ Hx); [contradiction | assumption].
  - destruct (Rmult_integral _ _ Hy); [contradiction | assumption].
  - destruct (Rmult_integral _ _ Hz); [contradiction | assumption].
Qed.

Lemma solution_shape lam xs ys :
  exists t0 t1 t2, solution lam xs ys = [[t0]; [t1]; [t2]].
Proof. unfold solution, inv3. cbn [map]. eauto. Qed.

Lemma solution_normal lam xs ys t0 t1 t2 :
  gram_det lam xs <> 0 ->
  solution lam xs ys = [[t0]; [t1]; [t2]] ->
  normal_eqs lam xs ys t0 t1 t2.
Proof.
  intros HD Hs. unfold solution, inv3 in Hs. cbn [map Np.dot] in Hs.
  rewrite gram_det_eq in Hs.
  injection Hs as <- <- <-.
  unfold normal_eqs. unfold gram_det, det3 in *.
  repeat split; field; exact HD.
Qed.

Lemma normal_unique lam xs ys t0 t1 t2 u0 u1 u2 :
  gram_det lam xs <> 0 ->
  normal_eqs lam xs ys t0 t1 t2 ->
  normal_eqs lam xs ys u0 u1 u2 ->
  t0 = u0 /\ t1 = u1 /\ t2 = u2.
Proof.
  intros HD (T0 & T1 & T2) (U0 & U1 & U2).
  destruct (cramer3 _ _ _ _ _ _ _ _ _ (t0 - u0) (t1 - u1) (t2 - u2) HD)
    as (E0 & E1 & E2); [lra | lra | lra |].
  repeat split; lra.
Qed.

(** ** The specification's sums are the power sums *)

Lemma big_sum_ext n f g :
  (forall k, f k = g k) -> Spec.big_sum n f = Spec.big_sum n g.
Proof.
  revert f g. induction n as [|n IH]; intros f g Hfg; [reflexivity|].
  cbn [Spec.big_sum]. rewrite (Hfg O). f_equal.
  apply IH. intros k. apply Hfg.
Qed.

Lemma big_sum_nth (g : R -> R) xs :
  Spec.big_sum (length xs) (fun k => g (nth k xs 0)) = Np.sum_list (map g xs).
Proof.
  induction xs as [|x xs IH]; [reflexivity|].
  cbn [length Spec.big_sum map Np.sum_list nth]. now rewrite IH.
Qed.

Lemma big_sum_nth2 (g : R -> R -> R) xs ys :
  length xs = length ys ->
  Spec.big_sum (length xs) (fun k => g (nth k xs 0) (nth k ys 0)) =
  Np.sum_list (Np.zip_with g xs ys).
Proof.
  revert ys. induction xs as [|x xs IH]; intros [|y ys] Hlen;
    try discriminate; [reflexivity|].
  cbn [length Spec.big_sum Np.zip_with Np.sum_list nth].
  rewrite IH by (injection Hlen; auto). reflexivity.
Qed.

Lemma X_pow xs k i : (i < 3)%nat -> Spec.X xs k i = nth k xs 0 ^ i.
Proof.
  intros Hi. unfold Spec.X, Spec.expand.
  destruct i as [|[|[|i]]]; cbn [nth]; try lia; ring.
Qed.

Lemma XtX_mom xs i j :
  (i < 3)%nat -> (j < 3)%nat -> Spec.XtX xs i j = mom (i + j) xs.
Proof.
  intros Hi Hj. unfold Spec.XtX, mom.
  rewrite <- (big_sum_nth (fun x => x ^ (i + j))).
  apply big_sum_ext. intros k.
  rewrite !X_pow by assumption. now rewrite pow_add.
Qed.

Lemma XtY_cross xs ys i :
  (i < 3)%nat -> length xs = length ys ->
  Spec.XtY xs ys i = cross i xs ys.
Proof.
  intros Hi Hlen. unfold Spec.XtY, cross.
  rewrite <- (big_sum_nth2 (fun x y => x ^ i * y)) by assumption.
  apply big_sum_ext. intros k.
  rewrite X_pow by assumption. reflexivity.
Qed.

(** The determinant of the specification's Gram matrix. *)
Lemma det_A lam xs :
  det3 (Spec.A lam xs 0 0) (Spec.A lam xs 0 1) (Spec.A lam xs 0 2)
       (Spec.A lam xs 1 0) (Spec.A lam xs 1 1) (Spec.A lam xs 1 2)
       (Spec.A lam xs 2 0) (Spec.A lam xs 2 1) (Spec.A lam xs 2 2)
  = gram_det lam xs.
Proof.
  unfold Spec.A. rewrite !XtX_mom by lia.
  unfold Spec.delta, gram_det, det3. cbn [Nat.eqb Nat.add]. ring.
Qed.

(** A matrix with a right inverse has a non-zero determinant. *)
Lemma det3_right_inverse
      a b c d e f g h i a' b' c' d' e' f' g' h' i' :
  a * a' + b * d' + c * g' = 1 -> a * b' + b * e' + c * h' = 0 ->
  a * c' + b * f' + c * i' = 0 ->
  d * a' + e * d' + f * g' = 0 -> d * b' + e * e' + f * h' = 1 ->
  d * c' + e * f' + f * i' = 0 ->
  g * a' + h * d' + i * g' = 0 -> g * b' + h * e' + i * h' = 0 ->
  g * c' + h * f' + i * i' = 1 ->
  det3 a b c d e f g h i <> 0.
Proof.
  intros H1 H2 H3 H4 H5 H6 H7 H8 H9 HD.
  assert (E : det3 a b c d e f g h i * det3 a' b' c' d' e' f' g' h' i' = 1).
  { transitivity
      (det3 (a * a' + b * d' + c * g') (a * b' + b * e' + c * h')
            (a * c' + b * f' + c * i')
            (d * a' + e * d' + f * g') (d * b' + e * e' + f * h')
            (d * c' + e * f' + f * i')
            (g * a' + h * d' + i * g') (g * b' + h * e' + i * h')
            (g * c' + h * f' + i * i')).
    - unfold det3. ring.
    - rewrite H1, H2, H3, H4, H5, H6, H7, H8, H9. unfold det3. ring. }
  rewrite HD in E. lra.
Qed.

Lemma invertible_det lam xs :
  Spec.invertible (Spec.A lam xs) -> gram_det lam xs <> 0.
Proof.
  intros [N HN]. rewrite <- det_A.
  apply (det3_right_inverse _ _ _ _ _ _ _ _ _
           (N 0 0) (N 0 1) (N 0 2) (N 1 0) (N 1 1) (N 1 2)
           (N 2 0) (N 2 1) (N 2 2))%nat.
  - exact (proj1 (HN 0 0 ltac:(lia) ltac:(lia)))%nat.
  - exact (proj1 (HN 0 1 ltac:(lia) ltac:(lia)))%nat.
  - exact (proj1 (HN 0 2 ltac:(lia) ltac:(lia)))%nat.
  - exact (proj1 (HN 1 0 ltac:(lia) ltac:(lia)))%nat.
  - exact (proj1 (HN 1 1 ltac:(lia) ltac:(lia)))%nat.
  - exact (proj1 (HN 1 2 ltac:(lia) ltac:(lia)))%nat.
  - exact (proj1 (HN 2 0 ltac:(lia) ltac:(lia)))%nat.
  - exact (proj1 (HN 2 1 ltac:(lia) ltac:(lia)))%nat.
  - exact (proj1 (HN 2 2 ltac:(lia) ltac:(lia)))%nat.
Qed.

Lemma A_entry lam xs i j :
  (i < 3)%nat -> (j < 3)%nat ->
  Spec.A lam xs i j = mom (i + j) xs + lam * Spec.delta i j.
Proof. intros Hi Hj. unfold Spec.A. now rewrite XtX_mom. Qed.

(** A right inverse applied to the right-hand side solves the system. *)
Lemma right_inverse_solves
      a b c d e f g h i a' b' c' d' e' f' g' h' i' c0 c1 c2 :
  a * a' + b * d' + c * g' = 1 -> a * b' + b * e' + c * h' = 0 ->
  a * c' + b * f' + c * i' = 0 ->
  d * a' + e * d' + f * g' = 0 -> d * b' + e * e' + f * h' = 1 ->
  d * c' + e * f' + f * i' = 0 ->
  g * a' + h * d' + i * g' = 0 -> g * b' + h * e' + i * h' = 0 ->
  g * c' + h * f' + i * i' = 1 ->
  let t0 := a' * c0 + b' * c1 + c' * c2 in
  let t1 := d' * c0 + e' * c1 + f' * c2 in
  let t2 := g' * c0 + h' * c1 + i' * c2 in
  a * t0 + b * t1 + c * t2 = c0 /\
  d * t0 + e * t1 + f * t2 = c1 /\
  g * t0 + h * t1 + i * t2 = c2.
Proof.
  intros H1 H2 H3 H4 H5 H6 H7 H8 H9 t0 t1 t2. subst t0 t1 t2.
  repeat split.
  - transitivity ((a * a' + b * d' + c * g') * c0
                  + (a * b' + b * e' + c * h') * c1
                  + (a * c' + b * f' + c * i') * c2); [ring|].
    rewrite H1, H2, H3. ring.
  - transitivity ((d * a' + e * d' + f * g') * c0
                  + (d * b' + e * e' + f * h') * c1
                  + (d * c' + e * f' + f * i') * c2); [ring|].
    rewrite H4, H5, H6. ring.
  - transitivity ((g * a' + h * d' + i * g') * c0
                  + (g * b' + h * e' + i * h') * c1
                  + (g * c' + h * f' + i * i') * c2); [ring|].
    rewrite H7, H8, H9. ring.
Qed.

Lemma theta_hat_normal lam xs ys N :
  length xs = length ys ->
  Spec.is_inverse (Spec.A lam xs) N ->
  normal_eqs lam xs ys (Spec.theta_hat N xs ys 0) (Spec.theta_hat N xs ys 1)
             (Spec.theta_hat N xs ys 2).
Proof.
  intros Hlen HN.
  destruct (right_inverse_solves
              (Spec.A lam xs 0 0) (Spec.A lam xs 0 1) (Spec.A lam xs 0 2)
              (Spec.A lam xs 1 0) (Spec.A lam xs 1 1) (Spec.A lam xs 1 2)
              (Spec.A lam xs 2 0) (Spec.A lam xs 2 1) (Spec.A lam xs 2 2)
              (N 0 0) (N 0 1) (N 0 2) (N 1 0) (N 1 1) (N 1 2)
              (N 2 0) (N 2 1) (N 2 2)
              (cross 0 xs ys) (cross 1 xs ys) (cross 2 xs ys))%nat
    as (E0 & E1 & E2).
  1: exact (proj1 (HN 0 0 ltac:(lia) ltac:(lia)))%nat.
  1: exact (proj1 (HN 0 1 ltac:(lia) ltac:(lia)))%nat.
  1: exact (proj1 (HN 0 2 ltac:(lia) ltac:(lia)))%nat.
  1: exact (proj1 (HN 1 0 ltac:(lia) ltac:(lia)))%nat.
  1: exact (proj1 (HN 1 1 ltac:(lia) ltac:(lia)))%nat.
  1: exact (proj1 (HN 1 2 ltac:(lia) ltac:(lia)))%nat.
  1: exact (proj1 (HN 2 0 ltac:(lia) ltac:(lia)))%nat.
  1: exact (proj1 (HN 2 1 ltac:(lia) ltac:(lia)))%nat.
  1: exact (proj1 (HN 2 2 ltac:(lia) ltac:(lia)))%nat.
  rewrite !A_entry in E0, E1, E2 by lia.
  unfold Spec.delta in E0, E1, E2. cbn [Nat.eqb Nat.add] in E0, E1, E2.
  unfold normal_eqs, Spec.theta_hat, Spec.sum3.
  rewrite !XtY_cross by (lia || assumption).
  repeat split; [rewrite <- E0 at 4 | rewrite <- E1 at 4 | rewrite <- E2 at 4];
    ring.
Qed.

(** ** Claims about [_x_bar] and the closed form of [fit] *)

(** C1 (refinement).  For [n >= 1] training pairs and a regularization
    strength for which [X^T X + lam I] has an inverse [Ainv], [fit] succeeds
    and the coefficient array it stores is exactly [Ainv (X^T Y)], with [X]
    the design matrix of rows [[1, x, x^2]] in input order, [Y] the column of
    targets in the same order and [I] the 3 x 3 identity. *)
Theorem fit_closed_form (self : Ridge) (pairs : list (R * R))
        (Ainv : nat -> nat -> R) :
  (1 <= length pairs)%nat ->
  Spec.is_inverse (Spec.A (_lambda self) (map fst pairs)) Ainv ->
  fit (map fst pairs) (map snd pairs) self =
  (fitted self
     (Spec.column (Spec.theta_hat Ainv (map fst pairs) (map snd pairs))),
   Return PyNone).
Proof.
  intros Hn HA.
  set (xs := map fst pairs) in *. set (ys := map snd pairs) in *.
  assert (Hlen : length xs = length ys)
    by (unfold xs, ys; now rewrite !length_map).
  assert (Hx : xs <> [])
    by (intros E; apply (f_equal (@length R)) in E; unfold xs in E;
        rewrite length_map in E; cbn in E; lia).
  assert (Hy : ys <> [])
    by (intros E; rewrite E in Hlen; destruct xs; [congruence|discriminate]).
  assert (HD : gram_det (_lambda self) xs <> 0)
    by (apply invertible_det; now exists Ainv).
  rewrite (fit_regular xs ys self Hx Hy HD), Hlen, Nat.eqb_refl.
  destruct (solution_shape (_lambda self) xs ys) as (t0 & t1 & t2 & Hs).
  pose proof (solution_normal _ _ _ _ _ _ HD Hs) as HT.
  pose proof (theta_hat_normal _ _ _ _ Hlen HA) as HU.
  destruct (normal_unique _ _ _ _ _ _ _ _ _ HD HT HU) as (-> & -> & ->).
  rewrite Hs. reflexivity.
Qed.

(** C3.  For every real [x] the feature expansion returns exactly the
    three-element vector [[1, x, x^2]], intercept first; being a function of
    the embedding it is total and has no effect. *)
Theorem x_bar_expand (x : R) :
  _x_bar x = Spec.expand x /\
  _x_bar x = [1; x; x ^ 2] /\
  length (_x_bar x) = 3%nat /\
  nth 0 (_x_bar x) 0 = 1.
Proof.
  assert (E : _x_bar x = [1; x; x ^ 2]).
  { rewrite x_bar_eq. unfold Np.square. entrywise; ring. }
  repeat split; try exact E; rewrite E; reflexivity.
Qed.

(** ** The possible outcomes of [fit] *)

Lemma fit_cases xs ys self :
  fit xs ys self = (self, Raise ValueError) \/
  (fit xs ys self = (self, Raise LinAlgError) /\
   xs <> [] /\ ys <> [] /\ gram_det (_lambda self) xs = 0) \/
  (exists c,
      fit xs ys self = (fitted self c, Return PyNone) /\
      (exists t0 t1 t2, c = [[t0]; [t1]; [t2]]) /\
      xs <> [] /\ length xs = length ys /\
      (gram_det (_lambda self) xs <> 0 ->
       c = solution (_lambda self) xs ys)).
Proof.
  destruct xs as [|x xs]; [left; apply fit_empty_x|].
  destruct ys as [|y ys]; [left; now apply fit_empty_y|].
  assert (Hx : x :: xs <> []) by discriminate.
  assert (Hy : y :: ys <> []) by discriminate.
  destruct (Req_dec (gram_det (_lambda self) (x :: xs)) 0) as [HD|HD].
  - destruct (lapack (gram (_lambda self) (x :: xs))) as [r|] eqn:HL.
    + rewrite (fit_rounded _ _ _ r Hx Hy HD HL).
      destruct (Nat.eqb_spec (length (x :: xs)) (length (y :: ys))) as [E|E];
        [|now left].
      right. right. eexists. split; [reflexivity|].
      split; [apply apply_rows_shape|].
      repeat split; try assumption. intros HD'. contradiction.
    + right. left. split; [now apply fit_singular|]. auto.
  - rewrite fit_regular by assumption.
    destruct (Nat.eqb_spec (length (x :: xs)) (length (y :: ys))) as [E|E];
      [|now left].
    right. right. eexists. split; [reflexivity|].
    split; [apply solution_shape|]. auto.
Qed.

Lemma fit_success xs ys self self' v :
  fit xs ys self = (self', Return v) ->
  exists c,
    self' = fitted self c /\ v = PyNone /\
    (exists t0 t1 t2, c = [[t0]; [t1]; [t2]]) /\
    xs <> [] /\ length xs = length ys /\
    (gram_det (_lambda self) xs <> 0 -> c = solution (_lambda self) xs ys).
Proof.
  intros H.
  destruct (fit_cases xs ys self) as [E|[(E & _)|(c & E & Hc & Hx & Hl & Hs)]];
    rewrite E in H; try discriminate.
  injection H as <- <-. exists c.
  split; [reflexivity|]. split; [reflexivity|]. split; [exact Hc|].
  split; [exact Hx|]. split; [exact Hl | exact Hs].
Qed.

Lemma fit_failure xs ys self self' e :
  fit xs ys self = (self', Raise e) -> self' = self.
Proof.
  intros H.
  destruct (fit_cases xs ys self) as [E|[(E & _)|(c & E & _)]];
    rewrite E in H; try discriminate; now injection H.
Qed.





(** ** Invertibility and the determinant *)

Lemma det_invertible lam xs :
  gram_det lam xs <> 0 -> Spec.invertible (Spec.A lam xs).
Proof.
  intros HD. exists (gram_inverse lam xs).
  intros i j Hi Hj. unfold Spec.sum3.
  rewrite !A_entry by lia.
  unfold gram_inverse, inv3. rewrite gram_det_eq.
  unfold gram_det, det3 in *.
  destruct i as [|[|[|i]]]; try lia;
    destruct j as [|[|[|j]]]; try lia;
    unfold Spec.delta; cbn [nth Nat.eqb Nat.add];
    split; field; exact HD.
Qed.

Lemma singular_det lam xs :
  ~ Spec.invertible (Spec.A lam xs) -> gram_det lam xs = 0.
Proof.
  intros Hs. destruct (Req_dec (gram_det lam xs) 0) as [E|E]; [exact E|].
  exfalso. apply Hs. now apply det_invertible.
Qed.

Lemma gram_det_few xs : (length xs < 3)%nat -> gram_det 0 xs = 0.
Proof.
  intros Hn. destruct xs as [|x1 [|x2 [|x3 xs]]]; cbn [length] in Hn;
    try lia; unfold gram_det, det3, mom; cbn [map Np.sum_list]; ring.
Qed.

Lemma mom_const x xs k :
  (forall x', In x' xs -> x' = x) -> mom k xs = INR (length xs) * x ^ k.
Proof.
  unfold mom. induction xs as [|a xs IH]; intros Hall.
  - cbn. ring.
  - cbn [map Np.sum_list length]. rewrite S_INR.
    rewrite IH by (intros x' Hx'; apply Hall; now right).
    rewrite (Hall a) by now left. ring.
Qed.

Lemma gram_det_identical x xs :
  (forall x', In x' xs -> x' = x) -> gram_det 0 xs = 0.
Proof.
  intros Hall. unfold gram_det. rewrite !(mom_const x xs) by assumption.
  unfold det3. ring.
Qed.

Lemma example_regular : gram_det 1 [0] <> 0.
Proof. unfold gram_det, det3, mom. cbn [map Np.sum_list]. lra. Qed.

Lemma example_singular : gram_det 0 [1; 1] = 0.
Proof. apply gram_det_few. cbn. lia. Qed.

(** ** Two runs of [fit] *)

(** One sample [(0, 1)] with [lam = 1]: [X^T X + I = diag(2, 1, 1)] and
    [X^T Y = (1, 0, 0)]. *)
Example fit_one_point :
  fit [0] [1] (__init__ 1) =
  (fitted (__init__ 1) [[1 / 2]; [0]; [0]], Return PyNone).
Proof.
  rewrite (fit_regular [0] [1] (__init__ 1)
             ltac:(discriminate) ltac:(discriminate) example_regular).
  cbn [length Nat.eqb _lambda __init__].
  unfold solution, inv3, det3, mom, cross.
  cbn [map Np.zip_with Np.sum_list Np.dot].
  do 2 f_equal. entrywise; field.
Qed.

(** Three noise-free samples of [y = x^2] with [lam = 0] give back the
    coefficients [(0, 0, 1)]. *)
Example fit_parabola :
  fit [-1; 0; 1] [1; 0; 1] (__init__ 0) =
  (fitted (__init__ 0) [[0]; [0]; [1]], Return PyNone).
Proof.
  assert (HD : gram_det (_lambda (__init__ 0)) [-1; 0; 1] <> 0).
  { unfold gram_det, det3, mom. cbn [_lambda __init__ map Np.sum_list]. lra. }
  rewrite (fit_regular [-1; 0; 1] [1; 0; 1] (__init__ 0)
             ltac:(discriminate) ltac:(discriminate) HD).
  cbn [length Nat.eqb _lambda __init__].
  unfold solution, inv3, det3, mom, cross.
  cbn [map Np.zip_with Np.sum_list Np.dot].
  do 2 f_equal. entrywise; field.
Qed.

(** ** Claims about errors, the returned value and the stored state *)

(** C5 (amended).  On non-empty training sequences whose regularized Gram
    matrix [X^T X + lam I] is singular, [fit] does not reliably fail.  It
    raises the singular-matrix error, leaving the instance unchanged, exactly
    when the inversion itself raises; when the inversion returns, [fit]
    raises the shape error on sequences of different lengths and otherwise
    returns normally, storing a 3 x 1 array.  No regularization is injected:
    [_lambda] is the same afterwards.  The matrix is singular for [lam = 0]
    with fewer than three samples and for [lam = 0] with all inputs
    identical. *)
Theorem fit_singular_outcomes :
  (forall self xs ys,
      xs <> [] -> ys <> [] ->
      ~ Spec.invertible (Spec.A (_lambda self) xs) ->
      (fit xs ys self = (self, Raise LinAlgError) \/
       (length xs <> length ys /\ fit xs ys self = (self, Raise ValueError)) \/
       (length xs = length ys /\
        exists t0 t1 t2,
          fit xs ys self = (fitted self [[t0]; [t1]; [t2]], Return PyNone))) /\
      (fit xs ys self = (self, Raise LinAlgError) <->
       Np.linalg_inv lapack (gram (_lambda self) xs) = Raise LinAlgError) /\
      _lambda (fst (fit xs ys self)) = _lambda self) /\
  (forall xs, (length xs < 3)%nat -> ~ Spec.invertible (Spec.A 0 xs)) /\
  (forall x xs,
      (forall x', In x' xs -> x' = x) -> ~ Spec.invertible (Spec.A 0 xs)).
Proof.
  split; [|split].
  - intros self xs ys Hx Hy Hs.
    pose proof (singular_det _ _ Hs) as HD.
    assert (HI : Np.linalg_inv lapack (gram (_lambda self) xs) =
                 match lapack (gram (_lambda self) xs) with
                 | None => Raise LinAlgError
                 | Some r => Return (Np.tabulate 3 r)
                 end)
      by (unfold gram; apply linalg_inv_singular; now rewrite gram_det_eq).
    rewrite HI.
    destruct (lapack (gram (_lambda self) xs)) as [r|] eqn:HL.
    + rewrite (fit_rounded xs ys self r Hx Hy HD HL).
      destruct (apply_rows_shape r xs ys) as (t0 & t1 & t2 & ->).
      destruct (Nat.eqb_spec (length xs) (length ys)) as [E|E].
      * split; [right; right; split; [exact E | now exists t0, t1, t2]|].
        split; [split; discriminate | reflexivity].
      * split; [right; left; now split|].
        split; [split; discriminate | reflexivity].
    + rewrite (fit_singular xs ys self Hx Hy HD HL).
      split; [now left|]. split; [split; reflexivity | reflexivity].
  - intros xs Hn Hinv. apply (invertible_det _ _ Hinv).
    now apply gram_det_few.
  - intros x xs Hall Hinv. apply (invertible_det _ _ Hinv).
    now apply (gram_det_identical x).
Qed.

(** C4 (amended).  Every successful call of [fit] stores the fitted
    coefficients, three of them, in the instance, where they can be read
    back as [_coeff_hat], and returns [None]. *)
Theorem fit_returns_none (self self' : Ridge) (xs ys : list R) (v : pyvalue) :
  fit xs ys self = (self', Return v) ->
  v = PyNone /\
  exists t0 t1 t2, _coeff_hat self' = Some [[t0]; [t1]; [t2]].
Proof.
  intros H.
  destruct (fit_success _ _ _ _ _ H)
    as (c & -> & -> & (t0 & t1 & t2 & ->) & _).
  split; [reflexivity|]. now exists t0, t1, t2.
Qed.

(** C10.  After a successful [fit] the stored coefficients form a
    two-dimensional array of shape (3, 1): indexing it at [i] gives a
    one-element array, not a scalar. *)
Theorem coeff_hat_is_column (self self' : Ridge) (xs ys : list R)
        (v : pyvalue) :
  fit xs ys self = (self', Return v) ->
  exists t0 t1 t2 c,
    _coeff_hat self' = Some c /\
    c = [[t0]; [t1]; [t2]] /\
    Np.shape c = (3%nat, 1%nat) /\
    Np.getitem c 0 = Return [t0] /\
    Np.getitem c 1 = Return [t1] /\
    Np.getitem c 2 = Return [t2].
Proof.
  intros H.
  destruct (fit_success _ _ _ _ _ H)
    as (c & -> & _ & (t0 & t1 & t2 & ->) & _).
  exists t0, t1, t2, [[t0]; [t1]; [t2]]. repeat split; reflexivity.
Qed.









(** ** Frame properties *)

Lemma fit_lambda_only xs ys self old :
  fit xs ys {| _lambda := _lambda self; _coeff_hat := old |} =
  match fit xs ys self with
  | (self', Return v) => (self', Return v)
  | (_, Raise e) => ({| _lambda := _lambda self; _coeff_hat := old |}, Raise e)
  end.
Proof.
  set (self0 := {| _lambda := _lambda self; _coeff_hat := old |}).
  destruct xs as [|x xs]; [now rewrite !fit_empty_x|].
  destruct ys as [|y ys]; [now rewrite !fit_empty_y|].
  assert (Hx : x :: xs <> []) by discriminate.
  assert (Hy : y :: ys <> []) by discriminate.
  destruct (Req_dec (gram_det (_lambda self) (x :: xs)) 0) as [HD|HD].
  - destruct (lapack (gram (_lambda self) (x :: xs))) as [r|] eqn:HL.
    + rewrite (fit_rounded _ _ self r Hx Hy HD HL).
      rewrite (fit_rounded _ _ self0 r Hx Hy HD HL).
      now destruct (length (x :: xs) =? length (y :: ys))%nat.
    + rewrite (fit_singular _ _ self Hx Hy HD HL).
      now rewrite (fit_singular _ _ self0 Hx Hy HD HL).
  - rewrite (fit_regular (x :: xs) (y :: ys) self) by assumption.
    rewrite (fit_regular (x :: xs) (y :: ys) self0) by assumption.
    now destruct (length (x :: xs) =? length (y :: ys))%nat.
Qed.



Lemma predict_frame x self : fst (predict x self) = self.
Proof.
  unfold predict, bind, get_coeff_hat, lift, ret.
  destruct (_coeff_hat self) as [c|] eqn:E; [|reflexivity].
  destruct (Np.getitem c 0); [|reflexivity].
  rewrite E. destruct (Np.getitem c 1); [|reflexivity].
  rewrite E. destruct (Np.getitem c 2); reflexivity.
Qed.

(** C9.  A call of [fit] changes nothing but the stored coefficient array:
    [_lambda] keeps the value given at construction, a call that raises
    leaves the instance as it was, and a call that succeeds overwrites the
    stored array, the new state being the same whatever was stored before.
    Evaluating [predict] changes nothing. *)
Theorem fit_frame (self : Ridge) (xs ys : list R) :
  _lambda (fst (fit xs ys self)) = _lambda self /\
  (forall e, snd (fit xs ys self) = Raise e -> fst (fit xs ys self) = self) /\
  (forall v, snd (fit xs ys self) = Return v ->
     forall old,
       fit xs ys {| _lambda := _lambda self; _coeff_hat := old |} =
       fit xs ys self) /\
  (forall x, fst (predict x self) = self).
Proof.
  repeat split.
  - destruct (fit_cases xs ys self) as [E|[(E & _)|(c & E & _)]];
      now rewrite E.
  - intros e He. destruct (fit xs ys self) as [self' o] eqn:E.
    cbn in He. subst o. apply (fit_failure _ _ _ _ _ E).
  - intros v Hv old. rewrite fit_lambda_only.
    destruct (fit xs ys self) as [self' o]. cbn in Hv. now subst o.
  - intros x. apply predict_frame.
Qed.


(** ** The unfitted state *)

Lemma unfitted_no_coeff self : unfitted self -> _coeff_hat self = None.
Proof.
  induction 1 as [lam | self xs ys e _ IH He | self x _ IH].
  - reflexivity.
  - destruct (fit xs ys self) as [self' o] eqn:E. cbn in He. subst o.
    cbn. now rewrite (fit_failure _ _ _ _ _ E).
  - now rewrite predict_frame.
Qed.

(** C6.  On an instance on which no call of [fit] has succeeded, evaluating
    the prediction raises: the coefficient attribute does not exist yet. *)
Theorem predict_unfitted (self : Ridge) (x : R) :
  unfitted self -> predict x self = (self, Raise AttributeError).
Proof.
  intros Hu. unfold predict, bind, get_coeff_hat.
  now rewrite (unfitted_no_coeff self Hu).
Qed.


(** ** Sequences of different lengths *)

(** C7 (amended).  For training sequences of different lengths [fit] raises
    and leaves the instance unchanged, but nothing is checked before the
    computation: the error is the shape error, raised when an empty
    sequence is stacked or by the final product with the targets, unless
    the inversion has raised the singular-matrix error first, which only a
    singular [X^T X + lam I] can cause. *)
Theorem fit_length_mismatch (self : Ridge) (xs ys : list R) :
  length xs <> length ys ->
  (fit xs ys self = (self, Raise ValueError) \/
   (fit xs ys self = (self, Raise LinAlgError) /\
    xs <> [] /\ ys <> [] /\
    ~ Spec.invertible (Spec.A (_lambda self) xs))) /\
  (xs = [] \/ ys = [] \/ Spec.invertible (Spec.A (_lambda self) xs) ->
   fit xs ys self = (self, Raise ValueError)).
Proof.
  intros Hlen.
  assert (Hcases :
            fit xs ys self = (self, Raise ValueError) \/
            (fit xs ys self = (self, Raise LinAlgError) /\
             xs <> [] /\ ys <> [] /\ gram_det (_lambda self) xs = 0)).
  { destruct (fit_cases xs ys self)
      as [E|[E|(c & _ & _ & _ & Hl & _)]]; auto. contradiction. }
  split.
  - destruct Hcases as [E | (E & Hx & Hy & HD)]; [now left|].
    right. repeat split; try assumption.
    intros Hinv. now apply (invertible_det _ _ Hinv).
  - intros [-> | [-> | Hinv]].
    + apply fit_empty_x.
    + destruct xs as [|x xs]; [apply fit_empty_x|].
      now apply fit_empty_y.
    + destruct Hcases as [E | (_ & _ & _ & HD)]; [exact E|].
      exfalso. now apply (invertible_det _ _ Hinv).
Qed.





(** ** Quadratic forms over the training data *)

Lemma mom_cons k x xs : mom k (x :: xs) = x ^ k + mom k xs.
Proof. reflexivity. Qed.

Lemma cross_cons k x xs y ys :
  cross k (x :: xs) (y :: ys) = x ^ k * y + cross k xs ys.
Proof. reflexivity. Qed.

Lemma sq_sum_cons d0 d1 d2 x xs :
  sq_sum d0 d1 d2 (x :: xs) =
  (d0 + d1 * x + d2 * x ^ 2) ^ 2 + sq_sum d0 d1 d2 xs.
Proof. reflexivity. Qed.

Lemma sq_eq_0 x : x ^ 2 = 0 -> x = 0.
Proof.
  intros H. replace (x ^ 2) with (x * x) in H by ring.
  destruct (Rmult_integral _ _ H); assumption.
Qed.

Lemma sq_sum_nonneg d0 d1 d2 xs : 0 <= sq_sum d0 d1 d2 xs.
Proof.
  induction xs as [|x xs IH].
  - unfold sq_sum. cbn. lra.
  - rewrite sq_sum_cons.
    pose proof (pow2_ge_0 (d0 + d1 * x + d2 * x ^ 2)). lra.
Qed.

(** The sum of squares is the quadratic form of [X^T X]. *)
Lemma sq_sum_mom d0 d1 d2 xs :
  sq_sum d0 d1 d2 xs =
  mom 0 xs * d0 ^ 2 + 2 * mom 1 xs * d0 * d1
  + mom 2 xs * (d1 ^ 2 + 2 * d0 * d2)
  + 2 * mom 3 xs * d1 * d2 + mom 4 xs * d2 ^ 2.
Proof.
  induction xs as [|x xs IH].
  - unfold sq_sum, mom. cbn. ring.
  - rewrite sq_sum_cons, !mom_cons, IH. ring.
Qed.

(** A vanishing sum of squares puts the vector in the kernel of [X^T X]. *)
Lemma sq_sum_zero d0 d1 d2 xs :
  sq_sum d0 d1 d2 xs = 0 ->
  mom 0 xs * d0 + mom 1 xs * d1 + mom 2 xs * d2 = 0 /\
  mom 1 xs * d0 + mom 2 xs * d1 + mom 3 xs * d2 = 0 /\
  mom 2 xs * d0 + mom 3 xs * d1 + mom 4 xs * d2 = 0.
Proof.
  induction xs as [|x xs IH]; intros Hz.
  - unfold mom. cbn. repeat split; ring.
  - rewrite sq_sum_cons in Hz.
    pose proof (pow2_ge_0 (d0 + d1 * x + d2 * x ^ 2)) as Hp.
    pose proof (sq_sum_nonneg d0 d1 d2 xs) as Hs.
    assert (Hr : d0 + d1 * x + d2 * x ^ 2 = 0).
    { assert (Hq : (d0 + d1 * x + d2 * x ^ 2) ^ 2 = 0) by lra.
      apply (sq_eq_0 _ Hq). }
    destruct IH as (I0 & I1 & I2); [lra|].
    rewrite !mom_cons. repeat split.
    + transitivity (x ^ 0 * (d0 + d1 * x + d2 * x ^ 2)
                    + (mom 0 xs * d0 + mom 1 xs * d1 + mom 2 xs * d2));
        [ring | rewrite Hr, I0; ring].
    + transitivity (x ^ 1 * (d0 + d1 * x + d2 * x ^ 2)
                    + (mom 1 xs * d0 + mom 2 xs * d1 + mom 3 xs * d2));
        [ring | rewrite Hr, I1; ring].
    + transitivity (x ^ 2 * (d0 + d1 * x + d2 * x ^ 2)
                    + (mom 2 xs * d0 + mom 3 xs * d1 + mom 4 xs * d2));
        [ring | rewrite Hr, I2; ring].
Qed.

Lemma residual_mom t0 t1 t2 xs ys :
  length xs = length ys ->
  residual_sum t0 t1 t2 xs ys =
  sq_sum t0 t1 t2 xs
  - 2 * (t0 * cross 0 xs ys + t1 * cross 1 xs ys + t2 * cross 2 xs ys)
  + target_sq ys.
Proof.
  revert ys. induction xs as [|x xs IH]; intros [|y ys] Hlen;
    try discriminate.
  - unfold residual_sum, sq_sum, cross, target_sq. cbn. ring.
  - rewrite sq_sum_cons, !cross_cons.
    unfold residual_sum, target_sq in *.
    cbn [Np.zip_with map Np.sum_list].
    rewrite IH by (injection Hlen; auto). ring.
Qed.

Lemma J_eq lam xs ys t :
  length xs = length ys ->
  Spec.J lam xs ys t =
  residual_sum (t 0%nat) (t 1%nat) (t 2%nat) xs ys
  + lam * (t 0%nat ^ 2 + t 1%nat ^ 2 + t 2%nat ^ 2).
Proof.
  intros Hlen. unfold Spec.J, residual_sum. f_equal.
  rewrite <- (big_sum_nth2
                (fun x y => (t 0%nat + t 1%nat * x + t 2%nat * x ^ 2 - y) ^ 2))
    by assumption.
  apply big_sum_ext. intros k. unfold Spec.sum3, Spec.Y.
  rewrite !X_pow by lia. ring.
Qed.

(** With the normal equations, the objective exceeds its value at the
    solution by the quadratic form of [X^T X + lam I] at the difference. *)
Lemma objective_gap lam xs ys u0 u1 u2 t0 t1 t2 :
  length xs = length ys ->
  normal_eqs lam xs ys u0 u1 u2 ->
  (residual_sum t0 t1 t2 xs ys + lam * (t0 ^ 2 + t1 ^ 2 + t2 ^ 2))
  - (residual_sum u0 u1 u2 xs ys + lam * (u0 ^ 2 + u1 ^ 2 + u2 ^ 2))
  = sq_sum (t0 - u0) (t1 - u1) (t2 - u2) xs
    + lam * ((t0 - u0) ^ 2 + (t1 - u1) ^ 2 + (t2 - u2) ^ 2).
Proof.
  intros Hlen (N0 & N1 & N2).
  rewrite !residual_mom by assumption. rewrite !sq_sum_mom.
  rewrite <- N0, <- N1, <- N2. ring.
Qed.

Lemma gap_zero lam xs d0 d1 d2 :
  0 <= lam -> gram_det lam xs <> 0 ->
  sq_sum d0 d1 d2 xs + lam * (d0 ^ 2 + d1 ^ 2 + d2 ^ 2) <= 0 ->
  d0 = 0 /\ d1 = 0 /\ d2 = 0.
Proof.
  intros Hlam HD Hle.
  pose proof (sq_sum_nonneg d0 d1 d2 xs) as Hs.
  pose proof (pow2_ge_0 d0) as P0.
  pose proof (pow2_ge_0 d1) as P1.
  pose proof (pow2_ge_0 d2) as P2.
  assert (Hn : 0 <= lam * (d0 ^ 2 + d1 ^ 2 + d2 ^ 2))
    by (apply Rmult_le_pos; lra).
  destruct (sq_sum_zero d0 d1 d2 xs ltac:(lra)) as (G0 & G1 & G2).
  assert (Hl : lam * d0 = 0 /\ lam * d1 = 0 /\ lam * d2 = 0).
  { destruct (Req_dec lam 0) as [->|Hnz]; [repeat split; ring|].
    assert (Hq : d0 ^ 2 + d1 ^ 2 + d2 ^ 2 = 0).
    { destruct (Rmult_integral lam (d0 ^ 2 + d1 ^ 2 + d2 ^ 2) ltac:(lra));
        [contradiction | assumption]. }
    assert (d0 ^ 2 = 0) by lra. assert (d1 ^ 2 = 0) by lra.
    assert (d2 ^ 2 = 0) by lra.
    rewrite (sq_eq_0 _ H), (sq_eq_0 _ H0), (sq_eq_0 _ H1).
    repeat split; ring. }
  destruct Hl as (L0 & L1 & L2).
  apply (cramer3 _ _ _ _ _ _ _ _ _ d0 d1 d2 HD); lra.
Qed.

Lemma pairs_lists (pairs : list (R * R)) :
  (1 <= length pairs)%nat ->
  map fst pairs <> [] /\ map snd pairs <> [] /\
  length (map fst pairs) = length (map snd pairs).
Proof.
  intros Hn. destruct pairs as [|p pairs]; [cbn in Hn; lia|].
  cbn [map]. repeat split; try discriminate.
  cbn [length]. now rewrite !length_map.
Qed.

(** ** The fitted coefficients minimize the penalized objective *)

(** C2.  For a training set of [n >= 1] pairs and a regularization strength
    [lam >= 0] for which [X^T X + lam I] is invertible, [fit] succeeds and
    the coefficient vector it stores is the unique global minimizer over R^3
    of [J(theta) = sum_i (theta^T xbar_i - y_i)^2 + lam |theta|^2]. *)
Theorem fit_minimizes (self : Ridge) (pairs : list (R * R)) :
  (1 <= length pairs)%nat ->
  0 <= _lambda self ->
  Spec.invertible (Spec.A (_lambda self) (map fst pairs)) ->
  exists theta : nat -> R,
    fit (map fst pairs) (map snd pairs) self =
      (fitted self (Spec.column theta), Return PyNone) /\
    (forall t : nat -> R,
        Spec.J (_lambda self) (map fst pairs) (map snd pairs) theta <=
        Spec.J (_lambda self) (map fst pairs) (map snd pairs) t) /\
    (forall t : nat -> R,
        Spec.J (_lambda self) (map fst pairs) (map snd pairs) t <=
        Spec.J (_lambda self) (map fst pairs) (map snd pairs) theta ->
        forall i, (i < 3)%nat -> t i = theta i).
Proof.
  intros Hn Hlam Hinv.
  destruct (pairs_lists pairs Hn) as (Hx & Hy & Hlen).
  set (xs := map fst pairs) in *. set (ys := map snd pairs) in *.
  set (lam := _lambda self) in *.
  pose proof (invertible_det _ _ Hinv) as HD.
  destruct (solution_shape lam xs ys) as (u0 & u1 & u2 & Hs).
  pose proof (solution_normal _ _ _ _ _ _ HD Hs) as HN.
  exists (Spec.vec u0 u1 u2). split; [|split].
  - rewrite (fit_regular xs ys self Hx Hy HD), Hlen, Nat.eqb_refl.
    fold lam. rewrite Hs. reflexivity.
  - intros t. rewrite !J_eq by assumption.
    pose proof (objective_gap lam xs ys u0 u1 u2 (t 0%nat) (t 1%nat) (t 2%nat)
                  Hlen HN) as Hg.
    pose proof (sq_sum_nonneg (t 0%nat - u0) (t 1%nat - u1) (t 2%nat - u2) xs).
    assert (0 <= lam * ((t 0%nat - u0) ^ 2 + (t 1%nat - u1) ^ 2
                        + (t 2%nat - u2) ^ 2)).
    { apply Rmult_le_pos; [assumption|].
      pose proof (pow2_ge_0 (t 0%nat - u0)).
      pose proof (pow2_ge_0 (t 1%nat - u1)).
      pose proof (pow2_ge_0 (t 2%nat - u2)). lra. }
    cbn [Spec.vec nth]. lra.
  - intros t Hle i Hi. rewrite !J_eq in Hle by assumption.
    pose proof (objective_gap lam xs ys u0 u1 u2 (t 0%nat) (t 1%nat) (t 2%nat)
                  Hlen HN) as Hg.
    cbn [Spec.vec nth] in Hle.
    destruct (gap_zero lam xs (t 0%nat - u0) (t 1%nat - u1) (t 2%nat - u2)
                Hlam HD ltac:(lra)) as (D0 & D1 & D2).
    destruct i as [|[|[|i]]]; try lia; cbn [Spec.vec nth]; lra.
Qed.


(** ** Shrinkage *)

(** A positive definite symmetric 3 x 3 matrix has a positive determinant
    (leading principal minors). *)
Lemma pd3_det_pos a b c e f i :
  (forall x y z,
      0 < x ^ 2 + y ^ 2 + z ^ 2 ->
      0 < a * x ^ 2 + 2 * b * x * y + 2 * c * x * z
          + e * y ^ 2 + 2 * f * y * z + i * z ^ 2) ->
  0 < det3 a b c b e f c f i.
Proof.
  intros Hpd.
  assert (Ha : 0 < a).
  { pose proof (Hpd 1 0 0 ltac:(lra)) as H. lra. }
  assert (Hm : 0 < a * e - b * b).
  { assert (Hv : 0 < (- b) ^ 2 + a ^ 2 + 0 ^ 2) by nra.
    pose proof (Hpd (- b) a 0 Hv) as H.
    replace (a * (- b) ^ 2 + 2 * b * (- b) * a + 2 * c * (- b) * 0
             + e * a ^ 2 + 2 * f * a * 0 + i * 0 ^ 2)
      with (a * (a * e - b * b)) in H by ring.
    apply (Rmult_lt_reg_l a); [exact Ha | lra]. }
  assert (Hv : 0 < (b * f - c * e) ^ 2 + (b * c - a * f) ^ 2
                   + (a * e - b * b) ^ 2).
  { pose proof (pow2_ge_0 (b * f - c * e)).
    pose proof (pow2_ge_0 (b * c - a * f)).
    assert (0 < (a * e - b * b) ^ 2) by (apply pow_lt; exact Hm). lra. }
  pose proof (Hpd _ _ _ Hv) as H.
  replace (a * (b * f - c * e) ^ 2
           + 2 * b * (b * f - c * e) * (b * c - a * f)
           + 2 * c * (b * f - c * e) * (a * e - b * b)
           + e * (b * c - a * f) ^ 2
           + 2 * f * (b * c - a * f) * (a * e - b * b)
           + i * (a * e - b * b) ^ 2)
    with ((a * e - b * b) * det3 a b c b e f c f i) in H
    by (unfold det3; ring).
  apply (Rmult_lt_reg_l (a * e - b * b)); [exact Hm | lra].
Qed.

(** With [lam > 0] the regularized Gram matrix is invertible. *)
Lemma gram_det_pos lam xs : 0 < lam -> 0 < gram_det lam xs.
Proof.
  intros Hlam. unfold gram_det. apply pd3_det_pos. intros x y z Hv.
  pose proof (sq_sum_nonneg x y z xs) as Hs. rewrite sq_sum_mom in Hs.
  assert (0 < lam * (x ^ 2 + y ^ 2 + z ^ 2)) by (apply Rmult_lt_0_compat; lra).
  lra.
Qed.

(** The squared norm of the solution does not grow with [lam]. *)
Lemma shrink lam1 lam2 xs ys t0 t1 t2 u0 u1 u2 :
  0 <= lam1 -> lam1 <= lam2 -> gram_det lam1 xs <> 0 ->
  normal_eqs lam1 xs ys t0 t1 t2 ->
  normal_eqs lam2 xs ys u0 u1 u2 ->
  u0 ^ 2 + u1 ^ 2 + u2 ^ 2 <= t0 ^ 2 + t1 ^ 2 + t2 ^ 2.
Proof.
  intros H1 H12 HD (T0 & T1 & T2) (U0 & U1 & U2).
  set (d0 := t0 - u0). set (d1 := t1 - u1). set (d2 := t2 - u2).
  assert (E0 : (mom 0 xs + lam1) * d0 + mom 1 xs * d1 + mom 2 xs * d2
               = (lam2 - lam1) * u0) by (unfold d0, d1, d2; lra).
  assert (E1 : mom 1 xs * d0 + (mom 2 xs + lam1) * d1 + mom 3 xs * d2
               = (lam2 - lam1) * u1) by (unfold d0, d1, d2; lra).
  assert (E2 : mom 2 xs * d0 + mom 3 xs * d1 + (mom 4 xs + lam1) * d2
               = (lam2 - lam1) * u2) by (unfold d0, d1, d2; lra).
  destruct (Req_dec lam1 lam2) as [Heq|Hne].
  - destruct (cramer3 _ _ _ _ _ _ _ _ _ d0 d1 d2 HD) as (Z0 & Z1 & Z2);
      [rewrite E0, Heq; ring | rewrite E1, Heq; ring | rewrite E2, Heq; ring|].
    unfold d0, d1, d2 in *.
    replace t0 with u0 by lra. replace t1 with u1 by lra.
    replace t2 with u2 by lra. lra.
  - assert (Hq : sq_sum d0 d1 d2 xs + lam1 * (d0 ^ 2 + d1 ^ 2 + d2 ^ 2)
                 = (lam2 - lam1) * (d0 * u0 + d1 * u1 + d2 * u2)).
    { rewrite sq_sum_mom.
      transitivity
        (d0 * ((mom 0 xs + lam1) * d0 + mom 1 xs * d1 + mom 2 xs * d2)
         + d1 * (mom 1 xs * d0 + (mom 2 xs + lam1) * d1 + mom 3 xs * d2)
         + d2 * (mom 2 xs * d0 + mom 3 xs * d1 + (mom 4 xs + lam1) * d2));
        [ring | rewrite E0, E1, E2; ring]. }
    pose proof (sq_sum_nonneg d0 d1 d2 xs) as Hs.
    pose proof (pow2_ge_0 d0) as P0. pose proof (pow2_ge_0 d1) as P1.
    pose proof (pow2_ge_0 d2) as P2.
    assert (Hn : 0 <= lam1 * (d0 ^ 2 + d1 ^ 2 + d2 ^ 2))
      by (apply Rmult_le_pos; lra).
    assert (Hp : 0 <= d0 * u0 + d1 * u1 + d2 * u2).
    { apply (Rmult_le_reg_l (lam2 - lam1)); [lra|]. lra. }
    replace (t0 ^ 2 + t1 ^ 2 + t2 ^ 2)
      with (u0 ^ 2 + u1 ^ 2 + u2 ^ 2 + 2 * (d0 * u0 + d1 * u1 + d2 * u2)
            + (d0 ^ 2 + d1 ^ 2 + d2 ^ 2))
      by (unfold d0, d1, d2; ring).
    lra.
Qed.

(** The solution is bounded by [|X^T Y| / lam]. *)
Lemma small_norm lam xs ys t0 t1 t2 :
  0 < lam ->
  normal_eqs lam xs ys t0 t1 t2 ->
  lam ^ 2 * (t0 ^ 2 + t1 ^ 2 + t2 ^ 2) <=
  cross 0 xs ys ^ 2 + cross 1 xs ys ^ 2 + cross 2 xs ys ^ 2.
Proof.
  intros Hlam (T0 & T1 & T2).
  set (c0 := cross 0 xs ys) in *. set (c1 := cross 1 xs ys) in *.
  set (c2 := cross 2 xs ys) in *.
  assert (Hq : sq_sum t0 t1 t2 xs + lam * (t0 ^ 2 + t1 ^ 2 + t2 ^ 2)
               = t0 * c0 + t1 * c1 + t2 * c2).
  { rewrite sq_sum_mom, <- T0, <- T1, <- T2. ring. }
  pose proof (sq_sum_nonneg t0 t1 t2 xs) as Hs.
  pose proof (pow2_ge_0 (lam * t0 - c0)) as P0.
  pose proof (pow2_ge_0 (lam * t1 - c1)) as P1.
  pose proof (pow2_ge_0 (lam * t2 - c2)) as P2.
  assert (Hm : lam * (lam * (t0 ^ 2 + t1 ^ 2 + t2 ^ 2))
               <= lam * (t0 * c0 + t1 * c1 + t2 * c2))
    by (apply Rmult_le_compat_l; lra).
  nra.
Qed.

Lemma norm_column t0 t1 t2 :
  Np.linalg_norm [[t0]; [t1]; [t2]] = sqrt (t0 ^ 2 + t1 ^ 2 + t2 ^ 2).
Proof.
  unfold Np.linalg_norm. cbn [concat app map Np.sum_list]. f_equal. ring.
Qed.

Lemma fit_init_regular lam xs ys :
  xs <> [] -> length xs = length ys -> gram_det lam xs <> 0 ->
  exists t0 t1 t2,
    fit xs ys (__init__ lam) =
      (fitted (__init__ lam) [[t0]; [t1]; [t2]], Return PyNone) /\
    normal_eqs lam xs ys t0 t1 t2.
Proof.
  intros Hx Hlen HD.
  assert (Hy : ys <> [])
    by (intros ->; destruct xs; [congruence | discriminate]).
  destruct (solution_shape lam xs ys) as (t0 & t1 & t2 & Hs).
  exists t0, t1, t2. split.
  - rewrite (fit_regular xs ys (__init__ lam) Hx Hy HD), Hlen, Nat.eqb_refl.
    cbn [_lambda __init__]. now rewrite Hs.
  - now apply solution_normal.
Qed.

(** C8.  On a fixed training set of [n >= 1] pairs: for regularization
    strengths [0 <= lam1 <= lam2] that both make [X^T X + lam I] invertible,
    the norm of the coefficients fitted with [lam2] is at most the norm of
    those fitted with [lam1]; and the norm of the fitted coefficients tends
    to 0 as [lam] grows: below any [eps > 0] for every [lam] from some bound
    on, where [fit] always succeeds. *)
Theorem ridge_shrinkage (pairs : list (R * R)) :
  (1 <= length pairs)%nat ->
  (forall lam1 lam2,
      0 <= lam1 -> lam1 <= lam2 ->
      Spec.invertible (Spec.A lam1 (map fst pairs)) ->
      Spec.invertible (Spec.A lam2 (map fst pairs)) ->
      exists c1 c2,
        fit (map fst pairs) (map snd pairs) (__init__ lam1) =
          (fitted (__init__ lam1) c1, Return PyNone) /\
        fit (map fst pairs) (map snd pairs) (__init__ lam2) =
          (fitted (__init__ lam2) c2, Return PyNone) /\
        Np.linalg_norm c2 <= Np.linalg_norm c1) /\
  (forall eps,
      0 < eps ->
      exists bound,
        forall lam,
          bound <= lam ->
          exists c,
            fit (map fst pairs) (map snd pairs) (__init__ lam) =
              (fitted (__init__ lam) c, Return PyNone) /\
            Np.linalg_norm c < eps).
Proof.
  intros Hn.
  destruct (pairs_lists pairs Hn) as (Hx & Hy & Hlen).
  set (xs := map fst pairs) in *. set (ys := map snd pairs) in *.
  split.
  - intros lam1 lam2 H1 H12 Hi1 Hi2.
    pose proof (invertible_det _ _ Hi1) as HD1.
    pose proof (invertible_det _ _ Hi2) as HD2.
    destruct (fit_init_regular lam1 xs ys Hx Hlen HD1)
      as (t0 & t1 & t2 & Ft & Nt).
    destruct (fit_init_regular lam2 xs ys Hx Hlen HD2)
      as (u0 & u1 & u2 & Fu & Nu).
    exists [[t0]; [t1]; [t2]], [[u0]; [u1]; [u2]].
    repeat split; try assumption.
    rewrite !norm_column. apply sqrt_le_1_alt.
    exact (shrink lam1 lam2 xs ys _ _ _ _ _ _ H1 H12 HD1 Nt Nu).
  - intros eps Heps.
    set (B := cross 0 xs ys ^ 2 + cross 1 xs ys ^ 2 + cross 2 xs ys ^ 2).
    assert (HB : 0 <= B).
    { unfold B. pose proof (pow2_ge_0 (cross 0 xs ys)).
      pose proof (pow2_ge_0 (cross 1 xs ys)).
      pose proof (pow2_ge_0 (cross 2 xs ys)). lra. }
    exists ((B + 1) / eps). intros lam Hlam.
    assert (Hb : 0 < (B + 1) / eps) by (apply Rdiv_lt_0_compat; lra).
    assert (Hpos : 0 < lam) by lra.
    assert (HD : gram_det lam xs <> 0)
      by (pose proof (gram_det_pos lam xs Hpos); lra).
    destruct (fit_init_regular lam xs ys Hx Hlen HD)
      as (t0 & t1 & t2 & Ft & Nt).
    exists [[t0]; [t1]; [t2]]. split; [exact Ft|].
    rewrite norm_column.
    pose proof (small_norm lam xs ys t0 t1 t2 Hpos Nt) as Hs. fold B in Hs.
    set (N := t0 ^ 2 + t1 ^ 2 + t2 ^ 2) in *.
    assert (HN : 0 <= N).
    { unfold N. pose proof (pow2_ge_0 t0). pose proof (pow2_ge_0 t1).
      pose proof (pow2_ge_0 t2). lra. }
    assert (Hle : B + 1 <= lam * eps).
    { replace (B + 1) with ((B + 1) / eps * eps) by (field; lra).
      apply Rmult_le_compat_r; lra. }
    assert (Hlt : N < eps ^ 2).
    { apply (Rmult_lt_reg_l (lam ^ 2)); [apply pow_lt; exact Hpos|].
      replace (lam ^ 2 * eps ^ 2) with ((lam * eps) ^ 2) by ring.
      assert (B + 1 <= (lam * eps) ^ 2) by nra. lra. }
    rewrite <- (sqrt_pow2 eps) by lra.
    apply sqrt_lt_1_alt. lra.
Qed.



(** * Further properties of the estimator *)

(** ** When [fit] succeeds *)

(** [fit] returns normally only on non-empty training sequences of one
    length, and on those it does whenever [X^T X + lam I] is invertible. *)
Theorem fit_success_conditions (self : Ridge) (xs ys : list R) :
  ((exists self' v, fit xs ys self = (self', Return v)) ->
   xs <> [] /\ length xs = length ys) /\
  (xs <> [] -> length xs = length ys ->
   Spec.invertible (Spec.A (_lambda self) xs) ->
   exists t0 t1 t2,
     fit xs ys self = (fitted self [[t0]; [t1]; [t2]], Return PyNone)).
Proof.
  split.
  - intros (self' & v & H).
    destruct (fit_success _ _ _ _ _ H) as (c & _ & _ & _ & Hx & Hl & _).
    now split.
  - intros Hx Hl Hi.
    assert (Hy : ys <> [])
      by (intros ->; destruct xs; [congruence | discriminate]).
    destruct (solution_shape (_lambda self) xs ys) as (t0 & t1 & t2 & Hs).
    exists t0, t1, t2.
    rewrite (fit_regular xs ys self Hx Hy (invertible_det _ _ Hi)).
    now rewrite Hl, Nat.eqb_refl, Hs.
Qed.



(** With a positive regularization strength the inversion never fails: on
    non-empty sequences of one length [fit] succeeds, and on any other input
    the error is the shape error. *)
Theorem fit_regularized (self : Ridge) (xs ys : list R) :
  0 < _lambda self ->
  (xs <> [] -> length xs = length ys ->
   exists t0 t1 t2,
     fit xs ys self = (fitted self [[t0]; [t1]; [t2]], Return PyNone)) /\
  (xs = [] \/ length xs <> length ys ->
   fit xs ys self = (self, Raise ValueError)).
Proof.
  intros Hlam.
  assert (HD : gram_det (_lambda self) xs <> 0)
    by (pose proof (gram_det_pos _ xs Hlam); lra).
  split.
  - intros Hx Hl.
    assert (Hy : ys <> [])
      by (intros ->; destruct xs; [congruence | discriminate]).
    destruct (solution_shape (_lambda self) xs ys) as (t0 & t1 & t2 & Hs).
    exists t0, t1, t2.
    rewrite (fit_regular xs ys self Hx Hy HD), Hl, Nat.eqb_refl.
    now rewrite Hs.
  - intros [-> | Hl]; [apply fit_empty_x|].
    destruct xs as [|x xs]; [apply fit_empty_x|].
    destruct ys as [|y ys]; [now apply fit_empty_y|].
    rewrite fit_regular by (assumption || discriminate).
    apply Nat.eqb_neq in Hl. now rewrite Hl.
Qed.


(** ** Distinct inputs *)

Lemma sq_sum_roots d0 d1 d2 xs :
  sq_sum d0 d1 d2 xs = 0 ->
  forall x, In x xs -> d0 + d1 * x + d2 * x ^ 2 = 0.
Proof.
  induction xs as [|a xs IH]; intros Hz x Hin; [contradiction|].
  rewrite sq_sum_cons in Hz.
  pose proof (pow2_ge_0 (d0 + d1 * a + d2 * a ^ 2)) as Hp.
  pose proof (sq_sum_nonneg d0 d1 d2 xs) as Hs.
  destruct Hin as [<- | Hin].
  - apply sq_eq_0. lra.
  - apply IH; [lra | assumption].
Qed.


(** A polynomial of degree at most two with three roots is zero. *)
Lemma three_roots d0 d1 d2 a b c :
  a <> b -> a <> c -> b <> c ->
  d0 + d1 * a + d2 * a ^ 2 = 0 ->
  d0 + d1 * b + d2 * b ^ 2 = 0 ->
  d0 + d1 * c + d2 * c ^ 2 = 0 ->
  d0 = 0 /\ d1 = 0 /\ d2 = 0.
Proof.
  intros Hab Hac Hbc Ha Hb Hc.
  apply (cramer3 1 a (a ^ 2) 1 b (b ^ 2) 1 c (c ^ 2)); try lra.
  replace (det3 1 a (a ^ 2) 1 b (b ^ 2) 1 c (c ^ 2))
    with ((b - a) * (c - a) * (c - b)) by (unfold det3; ring).
  repeat apply Rmult_integral_contrapositive_currified; lra.
Qed.

Lemma gram_det_distinct lam xs a b c :
  0 <= lam -> In a xs -> In b xs -> In c xs ->
  a <> b -> a <> c -> b <> c ->
  0 < gram_det lam xs.
Proof.
  intros Hlam Ia Ib Ic Hab Hac Hbc.
  unfold gram_det. apply pd3_det_pos. intros x y z Hv.
  pose proof (sq_sum_nonneg x y z xs) as Hs.
  assert (Hn : 0 <= lam * (x ^ 2 + y ^ 2 + z ^ 2))
    by (apply Rmult_le_pos; lra).
  destruct (Req_dec (sq_sum x y z xs) 0) as [Hz | Hnz].
  - exfalso.
    pose proof (sq_sum_roots x y z xs Hz) as Hr.
    destruct (three_roots x y z a b c Hab Hac Hbc (Hr a Ia) (Hr b Ib)
                (Hr c Ic)) as (-> & -> & ->).
    lra.
  - rewrite sq_sum_mom in Hs, Hnz. lra.
Qed.

(** With [lam >= 0] and three pairwise distinct values among the training
    inputs, [fit] succeeds on sequences of one length. *)
Theorem fit_three_distinct (self : Ridge) (xs ys : list R) (a b c : R) :
  0 <= _lambda self ->
  In a xs -> In b xs -> In c xs ->
  a <> b -> a <> c -> b <> c ->
  length xs = length ys ->
  exists t0 t1 t2,
    fit xs ys self = (fitted self [[t0]; [t1]; [t2]], Return PyNone).
Proof.
  intros Hlam Ia Ib Ic Hab Hac Hbc Hl.
  assert (HD : gram_det (_lambda self) xs <> 0)
    by (pose proof (gram_det_distinct _ xs a b c Hlam Ia Ib Ic Hab Hac Hbc);
        lra).
  assert (Hx : xs <> []) by (intros ->; contradiction).
  assert (Hy : ys <> [])
    by (intros ->; destruct xs; [congruence | discriminate]).
  destruct (solution_shape (_lambda self) xs ys) as (t0 & t1 & t2 & Hs).
  exists t0, t1, t2.
  rewrite (fit_regular xs ys self Hx Hy HD), Hl, Nat.eqb_refl.
  now rewrite Hs.
Qed.





(** ** Prediction after fitting *)

Lemma predict_column t0 t1 t2 self x :
  _coeff_hat self = Some [[t0]; [t1]; [t2]] ->
  predict x self = (self, Return [t0 + t1 * x + t2 * x ^ 2]).
Proof.
  intros Hc. unfold predict, bind, get_coeff_hat, lift, ret.
  rewrite Hc. cbn [Np.getitem nth_error]. rewrite Hc.
  cbn [Np.getitem nth_error]. rewrite Hc. reflexivity.
Qed.

(** After a successful [fit] the prediction expression evaluates, at every
    [x], to the one-element array holding [t0 + t1 x + t2 x^2] for the stored
    coefficients, and changes nothing; when [X^T X + lam I] is invertible
    these coefficients solve the normal equations. *)
Theorem predict_after_fit (self self' : Ridge) (xs ys : list R)
        (v : pyvalue) :
  fit xs ys self = (self', Return v) ->
  exists t0 t1 t2,
    _coeff_hat self' = Some [[t0]; [t1]; [t2]] /\
    (Spec.invertible (Spec.A (_lambda self) xs) ->
     normal_eqs (_lambda self) xs ys t0 t1 t2) /\
    forall x, predict x self' = (self', Return [t0 + t1 * x + t2 * x ^ 2]).
Proof.
  intros H.
  destruct (fit_success _ _ _ _ _ H)
    as (c & -> & _ & (t0 & t1 & t2 & ->) & _ & _ & Hs).
  exists t0, t1, t2. split; [reflexivity|]. split.
  - intros Hinv. pose proof (invertible_det _ _ Hinv) as HD.
    apply (solution_normal _ _ _ _ _ _ HD). symmetry. now apply Hs.
  - intros x. now apply predict_column.
Qed.



(** ** Noise-free data *)

Lemma cross_quadratic c0 c1 c2 i xs :
  cross i xs (map (quadratic c0 c1 c2) xs) =
  c0 * mom i xs + c1 * mom (i + 1) xs + c2 * mom (i + 2) xs.
Proof.
  induction xs as [|x xs IH].
  - unfold cross, mom. cbn. ring.
  - cbn [map]. rewrite cross_cons, !mom_cons, IH.
    unfold quadratic. rewrite !pow_add. ring.
Qed.

(** Round trip: on targets that follow a quadratic exactly, with no
    regularization and three pairwise distinct inputs, [fit] stores the
    coefficients of that quadratic and the prediction reproduces it. *)
Theorem fit_recovers_quadratic (self : Ridge) (xs : list R)
        (c0 c1 c2 a b c : R) :
  _lambda self = 0 ->
  In a xs -> In b xs -> In c xs ->
  a <> b -> a <> c -> b <> c ->
  fit xs (map (quadratic c0 c1 c2) xs) self =
    (fitted self [[c0]; [c1]; [c2]], Return PyNone) /\
  forall x,
    predict x (fitted self [[c0]; [c1]; [c2]]) =
    (fitted self [[c0]; [c1]; [c2]], Return [quadratic c0 c1 c2 x]).
Proof.
  intros Hlam Ia Ib Ic Hab Hac Hbc.
  set (ys := map (quadratic c0 c1 c2) xs).
  assert (HD : gram_det (_lambda self) xs <> 0).
  { pose proof (gram_det_distinct (_lambda self) xs a b c ltac:(lra)
                  Ia Ib Ic Hab Hac Hbc). lra. }
  assert (Hx : xs <> []) by (intros ->; contradiction).
  assert (Hl : length xs = length ys) by (unfold ys; now rewrite length_map).
  assert (Hy : ys <> [])
    by (intros E; rewrite E in Hl; destruct xs; [congruence | discriminate]).
  split.
  - rewrite (fit_regular xs ys self Hx Hy HD), Hl, Nat.eqb_refl.
    destruct (solution_shape (_lambda self) xs ys) as (t0 & t1 & t2 & Hs).
    pose proof (solution_normal _ _ _ _ _ _ HD Hs) as HT.
    assert (HC : normal_eqs (_lambda self) xs ys c0 c1 c2).
    { unfold normal_eqs, ys. rewrite !cross_quadratic, Hlam.
      cbn [Nat.add]. repeat split; ring. }
    destruct (normal_unique _ _ _ _ _ _ _ _ _ HD HT HC) as (-> & -> & ->).
    now rewrite Hs.
  - intros x. now apply predict_column.
Qed.


(** ** Residuals *)

Lemma residual_moment_mom i t0 t1 t2 xs ys :
  length xs = length ys ->
  residual_moment i t0 t1 t2 xs ys =
  t0 * mom i xs + t1 * mom (i + 1) xs + t2 * mom (i + 2) xs - cross i xs ys.
Proof.
  revert ys. induction xs as [|x xs IH]; intros [|y ys] Hl; try discriminate.
  - unfold residual_moment, mom, cross. cbn. ring.
  - rewrite cross_cons, !mom_cons.
    unfold residual_moment in *. cbn [Np.zip_with Np.sum_list].
    rewrite IH by (injection Hl; auto). rewrite !pow_add. ring.
Qed.

(** The intercept is penalized like the other coefficients: after a
    successful [fit] with an invertible [X^T X + lam I] the training
    residuals satisfy [X^T (X theta - Y) = - lam theta]; in particular they
    sum to [- lam t0], which is zero only without regularization or with a
    zero intercept. *)
Theorem fit_residuals (self self' : Ridge) (xs ys : list R) (v : pyvalue) :
  Spec.invertible (Spec.A (_lambda self) xs) ->
  fit xs ys self = (self', Return v) ->
  exists t0 t1 t2,
    _coeff_hat self' = Some [[t0]; [t1]; [t2]] /\
    residual_moment 0 t0 t1 t2 xs ys = - _lambda self * t0 /\
    residual_moment 1 t0 t1 t2 xs ys = - _lambda self * t1 /\
    residual_moment 2 t0 t1 t2 xs ys = - _lambda self * t2 /\
    Np.sum_list
      (Np.zip_with (fun x y => t0 + t1 * x + t2 * x ^ 2 - y) xs ys)
    = - _lambda self * t0.
Proof.
  intros Hinv H. pose proof (invertible_det _ _ Hinv) as HD.
  destruct (fit_success _ _ _ _ _ H)
    as (c & -> & _ & (t0 & t1 & t2 & ->) & _ & Hl & Hs).
  destruct (solution_normal (_lambda self) xs ys t0 t1 t2 HD) as (N0 & N1 & N2);
    [symmetry; now apply Hs|].
  assert (R0 : residual_moment 0 t0 t1 t2 xs ys = - _lambda self * t0)
    by (rewrite residual_moment_mom by assumption; cbn [Nat.add]; lra).
  exists t0, t1, t2. repeat split.
  - exact R0.
  - rewrite residual_moment_mom by assumption. cbn [Nat.add]. lra.
  - rewrite residual_moment_mom by assumption. cbn [Nat.add]. lra.
  - rewrite <- R0. unfold residual_moment. f_equal.
    clear. revert ys. induction xs as [|x xs IH]; intros [|y ys];
      try reflexivity.
    cbn [Np.zip_with]. rewrite IH. f_equal. ring.
Qed.



(** ** The order of the training pairs *)






(** ** The sweep over regularization factors *)

Lemma sweep_body_success xs ys l g c :
  fit xs ys (__init__ l) = (fitted (__init__ l) c, Return PyNone) ->
  sweep_body xs ys l g =
  ({| ridge := fitted (__init__ l) c;
      coeff_store := coeff_store g ++ [c];
      norm_store := norm_store g ++ [Np.linalg_norm c] |},
   Return tt).
Proof.
  intros H. unfold sweep_body, cbind, assign_ridge, on_ridge.
  cbn [ridge coeff_store norm_store]. rewrite H. reflexivity.
Qed.

Lemma sweep_body_regular xs ys l g :
  xs <> [] -> length xs = length ys -> gram_det l xs <> 0 ->
  sweep_body xs ys l g =
  ({| ridge := fitted (__init__ l) (solution l xs ys);
      coeff_store := coeff_store g ++ [solution l xs ys];
      norm_store := norm_store g ++ [Np.linalg_norm (solution l xs ys)] |},
   Return tt).
Proof.
  intros Hx Hl HD.
  assert (Hy : ys <> [])
    by (intros ->; destruct xs; [congruence | discriminate]).
  apply sweep_body_success.
  rewrite (fit_regular xs ys (__init__ l) Hx Hy HD), Hl, Nat.eqb_refl.
  reflexivity.
Qed.



Lemma sweep_body_raise xs ys l g r e :
  fit xs ys (__init__ l) = (r, Raise e) ->
  sweep_body xs ys l g =
  ({| ridge := __init__ l; coeff_store := coeff_store g;
      norm_store := norm_store g |}, Raise e).
Proof.
  intros H. pose proof (fit_failure _ _ _ _ _ H) as ->.
  unfold sweep_body, cbind, assign_ridge, on_ridge.
  cbn [ridge coeff_store norm_store]. rewrite H. reflexivity.
Qed.

(** What the loop leaves behind, whether it completes or not: both stores
    are extended, in order, by the coefficient arrays fitted for the factors
    handled so far and by their norms.  If a [fit] raises, the loop stops
    there with that exception, the stores hold the results of the factors
    before it, and [ridge] is left bound to the new, unfitted estimator. *)
Theorem sweep_loop (xs ys factors : list R) (g : globals) :
  exists done rest cs,
    factors = done ++ rest /\
    Forall2 (fun l c =>
               fit xs ys (__init__ l) = (fitted (__init__ l) c, Return PyNone))
            done cs /\
    coeff_store (fst (for_each factors (sweep_body xs ys) g)) =
      coeff_store g ++ cs /\
    norm_store (fst (for_each factors (sweep_body xs ys) g)) =
      norm_store g ++ map Np.linalg_norm cs /\
    match snd (for_each factors (sweep_body xs ys) g) with
    | Return _ => rest = []
    | Raise e =>
        exists l rest',
          rest = l :: rest' /\
          fit xs ys (__init__ l) = (__init__ l, Raise e) /\
          ridge (fst (for_each factors (sweep_body xs ys) g)) = __init__ l /\
          unfitted (ridge (fst (for_each factors (sweep_body xs ys) g)))
    end.
Proof.
  revert g. induction factors as [|l factors IH]; intros g.
  - exists [], [], []. cbn. rewrite !app_nil_r. auto.
  - assert (E : for_each (l :: factors) (sweep_body xs ys) g =
                match sweep_body xs ys l g with
                | (g', Return _) => for_each factors (sweep_body xs ys) g'
                | (g', Raise e) => (g', Raise e)
                end) by reflexivity.
    rewrite E. clear E.
    destruct (fit xs ys (__init__ l)) as [r [v | e]] eqn:Hfit.
    + destruct (fit_success _ _ _ _ _ Hfit) as (c & Hr & Hv & _).
      subst r v.
      rewrite (sweep_body_success xs ys l g c Hfit).
      destruct (IH {| ridge := fitted (__init__ l) c;
                      coeff_store := coeff_store g ++ [c];
                      norm_store := norm_store g ++ [Np.linalg_norm c] |})
        as (done & rest & cs & Hf & Hfs & Hc & Hn & Ho).
      exists (l :: done), rest, (c :: cs).
      cbn [coeff_store norm_store] in Hc, Hn.
      rewrite Hc, Hn. cbn [map app]. rewrite <- !app_assoc.
      split; [now rewrite Hf|]. split; [now constructor|].
      split; [reflexivity|]. split; [reflexivity|]. exact Ho.
    + rewrite (sweep_body_raise xs ys l g r e Hfit).
      pose proof (fit_failure _ _ _ _ _ Hfit) as Hr. subst r.
      exists [], (l :: factors), []. cbn. rewrite !app_nil_r.
      repeat split; try reflexivity; try constructor.
      exists l, factors. repeat split; try assumption. constructor.
Qed.


Lemma last_cons {A} (a d : A) l : last (a :: l) d = last l a.
Proof.
  revert a d. induction l as [|b l IH]; intros a d; [reflexivity|].
  change (last (a :: b :: l) d) with (last (b :: l) d).
  now rewrite (IH b d), (IH b a).
Qed.

(** The loop when every [fit] succeeds. *)
Lemma sweep_complete xs ys factors g :
  xs <> [] -> length xs = length ys ->
  (forall l, In l factors -> gram_det l xs <> 0) ->
  for_each factors (sweep_body xs ys) g =
  ({| ridge := last (map (fun l => fitted (__init__ l) (solution l xs ys))
                         factors) (ridge g);
      coeff_store := coeff_store g ++ map (fun l => solution l xs ys) factors;
      norm_store :=
        norm_store g
        ++ map (fun l => Np.linalg_norm (solution l xs ys)) factors |},
   Return tt).
Proof.
  intros Hx Hl. revert g.
  induction factors as [|l factors IH]; intros g Hall.
  - destruct g. cbn. now rewrite !app_nil_r.
  - assert (E : for_each (l :: factors) (sweep_body xs ys) g =
                match sweep_body xs ys l g with
                | (g', Return _) => for_each factors (sweep_body xs ys) g'
                | (g', Raise e) => (g', Raise e)
                end) by reflexivity.
    rewrite E. clear E.
    rewrite (sweep_body_regular xs ys l g Hx Hl (Hall l (or_introl eq_refl))).
    rewrite IH by (intros l' Hl'; apply Hall; now right).
    cbn [ridge coeff_store norm_store map]. rewrite last_cons.
    now rewrite <- !app_assoc.
Qed.

Lemma sweep_fits xs ys factors :
  xs <> [] -> length xs = length ys ->
  (forall l, In l factors -> gram_det l xs <> 0) ->
  Forall2 (fun l c =>
             fit xs ys (__init__ l) = (fitted (__init__ l) c, Return PyNone))
          factors (map (fun l => solution l xs ys) factors).
Proof.
  intros Hx Hl Hall.
  assert (Hy : ys <> [])
    by (intros ->; destruct xs; [congruence | discriminate]).
  induction factors as [|l factors IH]; [constructor|].
  cbn [map]. constructor.
  - rewrite (fit_regular xs ys (__init__ l) Hx Hy (Hall l (or_introl eq_refl))).
    now rewrite Hl, Nat.eqb_refl.
  - apply IH. intros l' Hl'. apply Hall. now right.
Qed.

Lemma norm_solution_le lam1 lam2 xs ys :
  0 <= lam1 -> lam1 <= lam2 ->
  gram_det lam1 xs <> 0 -> gram_det lam2 xs <> 0 ->
  Np.linalg_norm (solution lam2 xs ys) <= Np.linalg_norm (solution lam1 xs ys).
Proof.
  intros H1 H12 HD1 HD2.
  destruct (solution_shape lam1 xs ys) as (t0 & t1 & t2 & Ht).
  destruct (solution_shape lam2 xs ys) as (u0 & u1 & u2 & Hu).
  pose proof (solution_normal _ _ _ _ _ _ HD1 Ht) as Nt.
  pose proof (solution_normal _ _ _ _ _ _ HD2 Hu) as Nu.
  rewrite Ht, Hu, !norm_column. apply sqrt_le_1_alt.
  exact (shrink lam1 lam2 xs ys _ _ _ _ _ _ H1 H12 HD1 Nt Nu).
Qed.

Lemma sorted_norms xs ys factors :
  Sorted Rle factors ->
  (forall l, In l factors -> 0 <= l /\ gram_det l xs <> 0) ->
  Sorted Rge (map (fun l => Np.linalg_norm (solution l xs ys)) factors).
Proof.
  induction 1 as [|a l Hs IH Hd]; intros Hall; [constructor|].
  cbn [map]. constructor.
  - apply IH. intros l' Hl'. apply Hall. now right.
  - destruct Hd as [|b l' Hab]; [constructor|].
    cbn [map]. constructor. apply Rle_ge.
    destruct (Hall a (or_introl eq_refl)) as (Ha & HDa).
    destruct (Hall b (or_intror (or_introl eq_refl))) as (_ & HDb).
    now apply norm_solution_le.
Qed.

(** For training data on which every [fit] is well posed and factors that
    are non-negative and listed in ascending order, the loop completes, adds
    one coefficient array and one norm per factor, and the norms it records
    never increase along the list. *)
Theorem sweep_norms_decrease (xs ys factors : list R) (g : globals) :
  xs <> [] -> length xs = length ys ->
  Sorted Rle factors ->
  (forall l, In l factors -> 0 <= l /\ Spec.invertible (Spec.A l xs)) ->
  exists g' cs,
    for_each factors (sweep_body xs ys) g = (g', Return tt) /\
    Forall2 (fun l c =>
               fit xs ys (__init__ l) = (fitted (__init__ l) c, Return PyNone))
            factors cs /\
    coeff_store g' = coeff_store g ++ cs /\
    norm_store g' = norm_store g ++ map Np.linalg_norm cs /\
    Sorted Rge (map Np.linalg_norm cs).
Proof.
  intros Hx Hl Hs Hall.
  assert (HD : forall l, In l factors -> gram_det l xs <> 0)
    by (intros l Hin; apply invertible_det; now apply Hall).
  eexists. exists (map (fun l => solution l xs ys) factors).
  split; [apply (sweep_complete xs ys factors g Hx Hl HD)|].
  cbn [coeff_store norm_store]. rewrite map_map.
  repeat split; try reflexivity.
  - now apply sweep_fits.
  - apply sorted_norms; [assumption|].
    intros l Hin. split; [now apply Hall | now apply HD].
Qed.


(** ** The cells as the notebook runs them *)

Lemma linspace_unit :
  Sorted Rle (Np.linspace 0 1 10) /\
  (forall l, In l (Np.linspace 0 1 10) -> 0 <= l) /\
  length (Np.linspace 0 1 10) = 10%nat /\
  last (Np.linspace 0 1 10) 0 = 1.
Proof.
  unfold Np.linspace. cbn [Nat.sub seq map app length last].
  repeat split.
  - repeat constructor; simpl; lra.
  - intros l Hin. cbn [In] in Hin.
    repeat (destruct Hin as [<- | Hin]; [simpl; lra|]). contradiction.
Qed.

Lemma components_columns i store :
  (i < 3)%nat ->
  Forall (fun c => exists t0 t1 t2, c = [[t0]; [t1]; [t2]]) store ->
  exists vs,
    components i store = Return vs /\
    length vs = length store /\
    Forall (fun v => length v = 1%nat) vs.
Proof.
  intros Hi. induction 1 as [|c store (t0 & t1 & t2 & ->) _ IH].
  - exists []. repeat split. constructor.
  - destruct IH as (vs & Hv & Hl & Hf).
    destruct i as [|[|[|i]]]; try lia; cbn [components Np.getitem nth_error];
      rewrite Hv; eexists; (split; [reflexivity|]);
      (split; [cbn; now rewrite Hl | constructor; [reflexivity | exact Hf]]).
Qed.

(** The cell with the notebook's factors [np.linspace(0.0, 1.0, 10)]: on
    training sequences of one length with three pairwise distinct inputs it
    completes, leaves ten coefficient arrays of shape (3, 1) and their ten
    norms, which never increase, leaves [ridge] fitted with the last factor
    [1.0], and each of [c[0]], [c[1]], [c[2]] can then be read from every
    stored array. *)
Theorem sweep_cell_completes (xs ys : list R) (g : globals) (a b c : R) :
  In a xs -> In b xs -> In c xs ->
  a <> b -> a <> c -> b <> c ->
  length xs = length ys ->
  exists g',
    sweep_cell xs ys g = (g', Return tt) /\
    length (coeff_store g') = 10%nat /\
    Forall (fun m => Np.shape m = (3%nat, 1%nat)) (coeff_store g') /\
    norm_store g' = map Np.linalg_norm (coeff_store g') /\
    Sorted Rge (norm_store g') /\
    fit xs ys (__init__ 1) = (ridge g', Return PyNone) /\
    forall i, (i < 3)%nat ->
      exists vs, components i (coeff_store g') = Return vs /\
                 length vs = 10%nat.
Proof.
  intros Ia Ib Ic Hab Hac Hbc Hl.
  destruct linspace_unit as (Hs & Hpos & Hlen & Hlast).
  assert (Hx : xs <> []) by (intros ->; contradiction).
  assert (Hy : ys <> [])
    by (intros ->; destruct xs; [congruence | discriminate]).
  assert (HD : forall l, In l (Np.linspace 0 1 10) -> gram_det l xs <> 0).
  { intros l Hin. apply Rgt_not_eq.
    apply (gram_det_distinct l xs a b c (Hpos l Hin)); assumption. }
  unfold sweep_cell.
  rewrite (sweep_complete xs ys (Np.linspace 0 1 10) _ Hx Hl HD).
  eexists. split; [reflexivity|].
  cbn [ridge coeff_store norm_store app].
  assert (Hcols : Forall (fun m => exists t0 t1 t2, m = [[t0]; [t1]; [t2]])
                         (map (fun l => solution l xs ys)
                              (Np.linspace 0 1 10))).
  { apply Forall_forall. intros m Hm. apply in_map_iff in Hm.
    destruct Hm as (l & <- & _). apply solution_shape. }
  split; [now rewrite length_map|].
  split.
  { apply Forall_forall. intros m Hm. apply in_map_iff in Hm.
    destruct Hm as (l & <- & _).
    destruct (solution_shape l xs ys) as (t0 & t1 & t2 & ->). reflexivity. }
  split; [now rewrite map_map|].
  split.
  { apply sorted_norms; [assumption|].
    intros l Hin. split; [now apply Hpos | now apply HD]. }
  split.
  - assert (HD1 : gram_det 1 xs <> 0)
      by (apply Rgt_not_eq;
          apply (gram_det_distinct 1 xs a b c); (assumption || lra)).
    rewrite (fit_regular xs ys (__init__ 1) Hx Hy HD1), Hl, Nat.eqb_refl.
    reflexivity.
  - intros i Hi.
    destruct (components_columns i _ Hi Hcols) as (vs & Hv & Hlv & _).
    exists vs. split; [exact Hv|]. now rewrite Hlv, length_map.
Qed.

End Estimator.

(** * Instances

    The theorems above at concrete training sets.  Where the Gram matrix is
    invertible the behaviour of the inversion on singular matrices plays no
    part; where it is singular the instance says which behaviour it takes. *)

Lemma regular_run (lapack : Np.matrix -> option (nat -> nat -> R)) :
  fit lapack [0] [1] (__init__ 1) =
  (fitted (__init__ 1) (solution 1 [0] [1]), Return PyNone).
Proof.
  exact (fit_regular lapack [0] [1] (__init__ 1)
           ltac:(discriminate) ltac:(discriminate) example_regular).
Qed.

Lemma singular_two_points : gram_det 0 [2; 4] = 0.
Proof. apply gram_det_few. cbn. lia. Qed.

(** The closed form at a one-point training set with [lam = 1]. *)
Lemma fit_closed_form_witness :
  fit lu_breaks_down [0] [1] (__init__ 1) =
  (fitted (__init__ 1)
     (Spec.column (Spec.theta_hat (gram_inverse 1 [0]) [0] [1])),
   Return PyNone).
Proof.
  refine (fit_closed_form lu_breaks_down (__init__ 1) [(0, 1)]
            (gram_inverse 1 [0]) _ _).
  - cbn. lia.
  - cbn [_lambda __init__ map fst].
    intros i j Hi Hj. unfold Spec.sum3.
    rewrite !A_entry by lia.
    unfold gram_inverse, inv3, det3, mom, Spec.delta.
    destruct i as [|[|[|i]]]; try lia;
      destruct j as [|[|[|j]]]; try lia;
      cbn [nth Nat.eqb Nat.add map Np.sum_list]; split; field.
Defined.

Lemma fit_minimizes_witness :
  exists theta : nat -> R,
    fit lu_breaks_down [0] [1] (__init__ 1) =
      (fitted (__init__ 1) (Spec.column theta), Return PyNone) /\
    (forall t : nat -> R,
        Spec.J 1 [0] [1] theta <= Spec.J 1 [0] [1] t) /\
    (forall t : nat -> R,
        Spec.J 1 [0] [1] t <= Spec.J 1 [0] [1] theta ->
        forall i, (i < 3)%nat -> t i = theta i).
Proof.
  refine (fit_minimizes lu_breaks_down (__init__ 1) [(0, 1)] _ _ _).
  - cbn. lia.
  - cbn. lra.
  - apply det_invertible. exact example_regular.
Defined.

(** C4, as stated, fails: a successful call of [fit] hands [None] back to
    its caller, not the coefficient array. *)
Lemma fit_returns_array_fails :
  ~ (forall self xs ys self' v,
        fit lu_breaks_down xs ys self = (self', Return v) ->
        exists c, v = PyArray c /\ _coeff_hat self' = Some c).
Proof.
  intros H.
  destruct (H (__init__ 1) [0] [1] _ _ (regular_run lu_breaks_down))
    as (c & Hc & _).
  discriminate Hc.
Qed.

Lemma fit_returns_none_witness :
  PyNone = PyNone /\
  exists t0 t1 t2,
    _coeff_hat (fitted (__init__ 1) (solution 1 [0] [1])) =
    Some [[t0]; [t1]; [t2]].
Proof.
  exact (fit_returns_none lu_breaks_down (__init__ 1) _ [0] [1] PyNone
           (regular_run lu_breaks_down)).
Defined.

(** C5, as stated, fails: on the two samples [(2, 1)], [(4, 2)] with
    [lam = 0] the Gram matrix is singular, and when the inversion does not
    meet a zero pivot [fit] returns normally. *)
Lemma fit_singular_may_return :
  ~ (forall self xs ys,
        xs <> [] -> ys <> [] ->
        ~ Spec.invertible (Spec.A (_lambda self) xs) ->
        fit (lu_rounds_through (fun _ _ => 0)) xs ys self =
        (self, Raise LinAlgError)).
Proof.
  intros H.
  assert (Hx : [2; 4] <> []) by discriminate.
  assert (Hy : [1; 2] <> []) by discriminate.
  specialize (H (__init__ 0) [2; 4] [1; 2] Hx Hy).
  rewrite (fit_rounded (lu_rounds_through (fun _ _ => 0)) [2; 4] [1; 2]
             (__init__ 0) (fun _ _ => 0) Hx Hy singular_two_points eq_refl)
    in H.
  cbn [length Nat.eqb] in H.
  assert (Hs : ~ Spec.invertible (Spec.A (_lambda (__init__ 0)) [2; 4])).
  { intros Hinv. apply (invertible_det _ _ Hinv). exact singular_two_points. }
  specialize (H Hs). discriminate H.
Qed.

Lemma fit_singular_outcomes_witness :
  (fit (lu_rounds_through (fun _ _ => 0)) [2; 4] [1; 2] (__init__ 0) =
     (__init__ 0, Raise LinAlgError) \/
   (length [2; 4] <> length [1; 2] /\
    fit (lu_rounds_through (fun _ _ => 0)) [2; 4] [1; 2] (__init__ 0) =
      (__init__ 0, Raise ValueError)) \/
   (length [2; 4] = length [1; 2] /\
    exists t0 t1 t2,
      fit (lu_rounds_through (fun _ _ => 0)) [2; 4] [1; 2] (__init__ 0) =
        (fitted (__init__ 0) [[t0]; [t1]; [t2]], Return PyNone))) /\
  (fit (lu_rounds_through (fun _ _ => 0)) [2; 4] [1; 2] (__init__ 0) =
     (__init__ 0, Raise LinAlgError) <->
   Np.linalg_inv (lu_rounds_through (fun _ _ => 0))
                 (gram (_lambda (__init__ 0)) [2; 4]) = Raise LinAlgError) /\
  _lambda (fst (fit (lu_rounds_through (fun _ _ => 0)) [2; 4] [1; 2]
                    (__init__ 0))) = _lambda (__init__ 0).
Proof.
  refine (proj1 (fit_singular_outcomes (lu_rounds_through (fun _ _ => 0)))
            (__init__ 0) [2; 4] [1; 2] _ _ _).
  - discriminate.
  - discriminate.
  - intros Hinv. apply (invertible_det _ _ Hinv). exact singular_two_points.
Defined.

Lemma coeff_hat_is_column_witness :
  exists t0 t1 t2 c,
    _coeff_hat (fitted (__init__ 1) (solution 1 [0] [1])) = Some c /\
    c = [[t0]; [t1]; [t2]] /\
    Np.shape c = (3%nat, 1%nat) /\
    Np.getitem c 0 = Return [t0] /\
    Np.getitem c 1 = Return [t1] /\
    Np.getitem c 2 = Return [t2].
Proof.
  exact (coeff_hat_is_column lu_breaks_down (__init__ 1) _ [0] [1] PyNone
           (regular_run lu_breaks_down)).
Defined.

Lemma fit_frame_witness :
  fit lu_breaks_down [0] [1]
      {| _lambda := 1; _coeff_hat := Some [[5]; [6]; [7]] |} =
  fit lu_breaks_down [0] [1] (__init__ 1).
Proof.
  refine (proj1 (proj2 (proj2 (fit_frame lu_breaks_down (__init__ 1) [0] [1])))
            PyNone _ _).
  rewrite (regular_run lu_breaks_down). reflexivity.
Defined.

Lemma predict_unfitted_witness :
  unfitted lu_breaks_down
           (fst (fit lu_breaks_down [1; 1] [1; 2] (__init__ 0))) /\
  predict 3 (fst (fit lu_breaks_down [1; 1] [1; 2] (__init__ 0))) =
  (fst (fit lu_breaks_down [1; 1] [1; 2] (__init__ 0)), Raise AttributeError).
Proof.
  assert (Hu : unfitted lu_breaks_down
                 (fst (fit lu_breaks_down [1; 1] [1; 2] (__init__ 0)))).
  { apply (unfitted_fit lu_breaks_down _ _ _ LinAlgError
             (unfitted_init lu_breaks_down 0)).
    rewrite (fit_singular lu_breaks_down [1; 1] [1; 2] (__init__ 0)
               ltac:(discriminate) ltac:(discriminate) example_singular
               eq_refl).
    reflexivity. }
  split; [exact Hu|].
  exact (predict_unfitted lu_breaks_down _ 3 Hu).
Defined.

(** C7, as stated, fails: with training sequences of lengths 2 and 1 and a
    singular Gram matrix on which the inversion meets a zero pivot, [fit]
    has already inverted before it meets the shapes, and raises the
    singular-matrix error. *)
Lemma fit_shape_check_fails :
  ~ (forall self xs ys,
        length xs <> length ys ->
        fit lu_breaks_down xs ys self = (self, Raise ValueError)).
Proof.
  intros H.
  specialize (H (__init__ 0) [1; 1] [1] ltac:(discriminate)).
  rewrite (fit_singular lu_breaks_down [1; 1] [1] (__init__ 0)
             ltac:(discriminate) ltac:(discriminate) example_singular eq_refl)
    in H.
  discriminate H.
Qed.

Lemma fit_length_mismatch_witness :
  (fit lu_breaks_down [1; 1] [1] (__init__ 0) = (__init__ 0, Raise ValueError)
   \/
   (fit lu_breaks_down [1; 1] [1] (__init__ 0) = (__init__ 0, Raise LinAlgError)
    /\ [1; 1] <> [] /\ [1] <> [] /\
    ~ Spec.invertible (Spec.A (_lambda (__init__ 0)) [1; 1]))) /\
  ([1; 1] = [] \/ [1] = [] \/
   Spec.invertible (Spec.A (_lambda (__init__ 0)) [1; 1]) ->
   fit lu_breaks_down [1; 1] [1] (__init__ 0) = (__init__ 0, Raise ValueError)).
Proof.
  refine (fit_length_mismatch lu_breaks_down (__init__ 0) [1; 1] [1] _).
  discriminate.
Defined.

Lemma ridge_shrinkage_witness :
  exists c1 c2,
    fit lu_breaks_down [0] [1] (__init__ 1) =
      (fitted (__init__ 1) c1, Return PyNone) /\
    fit lu_breaks_down [0] [1] (__init__ 2) =
      (fitted (__init__ 2) c2, Return PyNone) /\
    Np.linalg_norm c2 <= Np.linalg_norm c1.
Proof.
  refine (proj1 (ridge_shrinkage lu_breaks_down [(0, 1)] _) 1 2 _ _ _ _).
  - cbn. lia.
  - lra.
  - lra.
  - apply det_invertible. exact example_regular.
  - apply det_invertible. apply Rgt_not_eq. apply gram_det_pos. lra.
Defined.

Lemma fit_success_conditions_witness :
  exists t0 t1 t2,
    fit lu_breaks_down [0] [1] (__init__ 1) =
    (fitted (__init__ 1) [[t0]; [t1]; [t2]], Return PyNone).
Proof.
  refine (proj2 (fit_success_conditions lu_breaks_down (__init__ 1) [0] [1])
            _ _ _).
  - discriminate.
  - reflexivity.
  - apply det_invertible. exact example_regular.
Defined.

Lemma fit_regularized_witness :
  exists t0 t1 t2,
    fit lu_breaks_down [0] [1] (__init__ 1) =
    (fitted (__init__ 1) [[t0]; [t1]; [t2]], Return PyNone).
Proof.
  refine (proj1 (fit_regularized lu_breaks_down (__init__ 1) [0] [1] _) _ _).
  - cbn. lra.
  - discriminate.
  - reflexivity.
Defined.

Lemma fit_three_distinct_witness :
  exists t0 t1 t2,
    fit lu_breaks_down [-1; 0; 1] [1; 0; 1] (__init__ 0) =
    (fitted (__init__ 0) [[t0]; [t1]; [t2]], Return PyNone).
Proof.
  refine (fit_three_distinct lu_breaks_down (__init__ 0) [-1; 0; 1] [1; 0; 1]
            (-1) 0 1 _ _ _ _ _ _ _ _).
  - cbn. lra.
  - now left.
  - right. now left.
  - right. right. now left.
  - lra.
  - lra.
  - lra.
  - reflexivity.
Defined.

Lemma predict_after_fit_witness :
  exists t0 t1 t2,
    _coeff_hat (fitted (__init__ 1) (solution 1 [0] [1]))
    = Some [[t0]; [t1]; [t2]] /\
    (Spec.invertible (Spec.A (_lambda (__init__ 1)) [0]) ->
     normal_eqs (_lambda (__init__ 1)) [0] [1] t0 t1 t2) /\
    forall x,
      predict x (fitted (__init__ 1) (solution 1 [0] [1])) =
      (fitted (__init__ 1) (solution 1 [0] [1]),
       Return [t0 + t1 * x + t2 * x ^ 2]).
Proof.
  exact (predict_after_fit lu_breaks_down (__init__ 1) _ [0] [1] PyNone
           (regular_run lu_breaks_down)).
Defined.

Lemma fit_recovers_quadratic_witness :
  fit lu_breaks_down [-1; 0; 1] (map (quadratic 3 2 5) [-1; 0; 1])
      (__init__ 0) =
    (fitted (__init__ 0) [[3]; [2]; [5]], Return PyNone) /\
  forall x,
    predict x (fitted (__init__ 0) [[3]; [2]; [5]]) =
    (fitted (__init__ 0) [[3]; [2]; [5]], Return [quadratic 3 2 5 x]).
Proof.
  refine (fit_recovers_quadratic lu_breaks_down (__init__ 0) [-1; 0; 1]
            3 2 5 (-1) 0 1 _ _ _ _ _ _ _).
  - reflexivity.
  - now left.
  - right. now left.
  - right. right. now left.
  - lra.
  - lra.
  - lra.
Defined.

Lemma fit_residuals_witness :
  exists t0 t1 t2,
    _coeff_hat (fitted (__init__ 1) (solution 1 [0] [1]))
    = Some [[t0]; [t1]; [t2]] /\
    residual_moment 0 t0 t1 t2 [0] [1] = - _lambda (__init__ 1) * t0 /\
    residual_moment 1 t0 t1 t2 [0] [1] = - _lambda (__init__ 1) * t1 /\
    residual_moment 2 t0 t1 t2 [0] [1] = - _lambda (__init__ 1) * t2 /\
    Np.sum_list
      (Np.zip_with (fun x y => t0 + t1 * x + t2 * x ^ 2 - y) [0] [1])
    = - _lambda (__init__ 1) * t0.
Proof.
  refine (fit_residuals lu_breaks_down (__init__ 1) _ [0] [1] PyNone _
            (regular_run lu_breaks_down)).
  apply det_invertible. exact example_regular.
Defined.


Lemma sweep_norms_decrease_witness :
  exists g' cs,
    for_each [0; 1] (sweep_body lu_breaks_down [-1; 0; 1] [1; 0; 1])
             {| ridge := __init__ 5; coeff_store := []; norm_store := [] |}
    = (g', Return tt) /\
    Forall2 (fun l c =>
               fit lu_breaks_down [-1; 0; 1] [1; 0; 1] (__init__ l) =
               (fitted (__init__ l) c, Return PyNone))
            [0; 1] cs /\
    coeff_store g' = [] ++ cs /\
    norm_store g' = [] ++ map Np.linalg_norm cs /\
    Sorted Rge (map Np.linalg_norm cs).
Proof.
  refine (sweep_norms_decrease lu_breaks_down [-1; 0; 1] [1; 0; 1] [0; 1]
            {| ridge := __init__ 5; coeff_store := []; norm_store := [] |}
            _ _ _ _).
  - discriminate.
  - reflexivity.
  - repeat constructor. lra.
  - intros l Hin.
    assert (Hl : 0 <= l) by (destruct Hin as [<- | [<- | []]]; lra).
    split; [exact Hl|].
    apply det_invertible. apply Rgt_not_eq.
    apply (gram_det_distinct l [-1; 0; 1] (-1) 0 1 Hl); cbn; auto; lra.
Defined.

Lemma sweep_cell_completes_witness :
  exists g',
    sweep_cell lu_breaks_down [-1; 0; 1] [1; 0; 1]
               {| ridge := __init__ 5; coeff_store := []; norm_store := [] |}
    = (g', Return tt) /\
    length (coeff_store g') = 10%nat /\
    Forall (fun m => Np.shape m = (3%nat, 1%nat)) (coeff_store g') /\
    norm_store g' = map Np.linalg_norm (coeff_store g') /\
    Sorted Rge (norm_store g') /\
    fit lu_breaks_down [-1; 0; 1] [1; 0; 1] (__init__ 1) =
      (ridge g', Return PyNone) /\
    forall i, (i < 3)%nat ->
      exists vs, components i (coeff_store g') = Return vs /\
                 length vs = 10%nat.
Proof.
  refine (sweep_cell_completes lu_breaks_down [-1; 0; 1] [1; 0; 1] _ (-1) 0 1
            _ _ _ _ _ _ _).
  - now left.
  - right. now left.
  - right. right. now left.
  - lra.
  - lra.
  - lra.
  - reflexivity.
Defined.
